(** * dupfinder: duplicate-file detection by three hashing passes

    A shallow embedding of [dupfinder.py] and the properties its
    specification states about it.

    Modelling conventions.
    - Paths and hex digests are [string]s, file contents are [list byte].
    - A Python [dict] that is iterated ([duplicates], whose [.values()] feed
      the next pass) is an insertion-ordered association list ([ODict]);
      the [candidates] dict, which is only probed by key, is a [gmap].
    - A generator is the list of the items it yields together with the
      exception, if any, that ends it.
    - A raised exception is the [Raise] case of [result].
    - The file system does not change during a run: [open] and [isfile]
      are functions of the path. *)

From Stdlib Require Import ZArith Ascii String.
From Stdlib.Strings Require Import Byte.
From stdpp Require Import gmap strings list.

Local Open Scope string_scope.
Local Open Scope Z_scope.
Local Open Scope list_scope.

(** ** Exceptions *)

Inductive exn : Type :=
| OSError (filename : string).

Inductive result (A : Type) : Type :=
| Ok (a : A)
| Raise (e : exn).
Arguments Ok {A} a.
Arguments Raise {A} e.

(** ** Insertion-ordered dictionaries with string keys *)

Module ODict.

Definition t (V : Type) : Type := list (string * V).

Definition empty {V} : t V := [].

(** [d.get(k)] *)
Fixpoint get {V} (k : string) (d : t V) : option V :=
  match d with
  | [] => None
  | (k', v) :: d' => if decide (k = k') then Some v else get k d'
  end.

(** [d[k] = v]: an existing key keeps its position, a new key goes last. *)
Fixpoint set {V} (k : string) (v : V) (d : t V) : t V :=
  match d with
  | [] => [(k, v)]
  | (k', v') :: d' =>
      if decide (k = k') then (k', v) :: d' else (k', v') :: set k v d'
  end.

Definition keys {V} (d : t V) : list string := d.*1.

(** [d.values()] *)
Definition values {V} (d : t V) : list V := d.*2.

End ODict.

(** ** The hasher *)

(** one disk block *)
Definition SCANSIZE : Z := 4096.

(** An open binary file is the bytes that remain after the read position.
    [file_read size file] is [file.read(size)]: the bytes returned and the
    file afterwards.  A negative size reads to the end of the file. *)
Definition file_read (size : Z) (file : list byte) : list byte * list byte :=
  if size <? 0 then (file, [])
  else (take (Z.to_nat size) file, drop (Z.to_nat size) file).

(** [for byte_block in iter(lambda: file.read(4096), b"")]: the blocks read
    before the first empty one.  Every non-empty read consumes a byte, so
    [S (length file)] rounds are enough ([read_blocks_fuel]). *)
Fixpoint read_blocks (fuel : nat) (file : list byte) : list (list byte) :=
  match fuel with
  | O => []
  | S fuel' =>
      let '(byte_block, file') := file_read 4096 file in
      match byte_block with
      | [] => []
      | _ => byte_block :: read_blocks fuel' file'
      end
  end.

Section Hashing.

(** [hashfunc d] stands for [hashfunc(d).hexdigest()].  A hash object is
    the data it has been fed so far: [update] appends, and [hexdigest]
    is the digest of what was fed. *)
Variable hashfunc : list byte → string.

Definition hash_new : list byte := [].
Definition hash_update (xx byte_block : list byte) : list byte := xx ++ byte_block.
Definition hexdigest (xx : list byte) : string := hashfunc xx.

(** The body of the [with open(...)] block of [hasher]. *)
Definition digest (scansize : Z) (file : list byte) : string :=
  if decide (scansize ≠ 0) then
    let d := (file_read scansize file).1 in
    hashfunc d
  else
    let xx := foldl hash_update hash_new (read_blocks (S (length file)) file) in
    hexdigest xx.

(** [open(filename, 'rb')] and the reads that follow: the contents of the
    file, or [None] when opening or reading it raises. *)
Variable open : string → option (list byte).

(** The generator [hasher]: the pairs it yields, and the exception that
    ends it when a file cannot be opened. *)
Fixpoint hasher (files : list string) (scansize : Z)
  : list (string * string) * option exn :=
  match files with
  | [] => ([], None)
  | filename :: files' =>
      match open filename with
      | None => ([], Some (OSError filename))
      | Some file =>
          let x := digest scansize file in
          let '(rest, e) := hasher files' scansize in
          ((x, filename) :: rest, e)
      end
  end.

(** ** The grouping pass *)

(** One iteration of the loop of [duplicates] on the state
    [(candidates, duplicates)]. *)
Definition group_step (st : gmap string string * ODict.t (list string))
    (item : string * string) : gmap string string * ODict.t (list string) :=
  let '(candidates, dups) := st in
  let '(hash, filename) := item in
  match ODict.get hash dups with
  | Some members => (candidates, ODict.set hash (members ++ [filename]) dups)
  | None =>
      match candidates !! hash with
      | Some first => (candidates, ODict.set hash [first; filename] dups)
      | None => (<[hash := filename]> candidates, dups)
      end
  end.

(** The loop of [duplicates] over the items a generator yields. *)
Definition group_loop (items : list (string * string))
  : gmap string string * ODict.t (list string) :=
  foldl group_step (∅, ODict.empty) items.

Definition duplicates (files : list string) (scansize : Z)
  : result (ODict.t (list string)) :=
  let '(items, e) := hasher files scansize in
  let st := group_loop items in
  match e with
  | Some err => Raise err
  | None => Ok st.2
  end.

(** [(file for files in dups.values() for file in files)] *)
Definition flatten (dups : ODict.t (list string)) : list string :=
  concat (ODict.values dups).

(** The three passes of [dupfinder] on the enumerated files, with the two
    prefix lengths as parameters. *)
Definition passes (scan1 scan2 : Z) (files : list string)
  : result (ODict.t (list string)) :=
  match duplicates files scan1 with
  | Raise e => Raise e
  | Ok dups =>
      match duplicates (flatten dups) scan2 with
      | Raise e => Raise e
      | Ok dups => duplicates (flatten dups) 0
      end
  end.

End Hashing.

(** ** Walking the directory tree *)

(** [s.startswith(pre)] *)
Fixpoint startswith (s pre : string) {struct pre} : bool :=
  match pre, s with
  | EmptyString, _ => true
  | String _ _, EmptyString => false
  | String c pre', String c' s' => Ascii.eqb c c' && startswith s' pre'
  end.

(** [e in s] on strings: [e] occurs in [s] as a substring. *)
Fixpoint contains (s e : string) : bool :=
  startswith s e ||
  match s with
  | EmptyString => false
  | String _ s' => contains s' e
  end.

(** [s.endswith("/")] *)
Fixpoint endswith_sep (s : string) : bool :=
  match s with
  | EmptyString => false
  | String c EmptyString => Ascii.eqb c "/"%char
  | String _ s' => endswith_sep s'
  end.

(** [os.path.join(a, b)] of [posixpath]. *)
Definition path_join (a b : string) : string :=
  if startswith b "/" then b
  else if decide (a = "") then a +:+ b
  else if endswith_sep a then a +:+ b
  else a +:+ "/" +:+ b.

(** A directory as [os.walk] sees it: its sub-directories by name, and the
    names of its other entries.  (Symbolic links to directories, which
    [os.walk] lists among the [dirnames] without entering them, are left
    out: [filewalker] never looks at [dirnames].) *)
#[local] Set Warnings "-register-all".
Inductive dirtree : Type :=
| Dir (subdirs : list (string * dirtree)) (nondirs : list string).

(** [os.walk(top)], top-down: the triples [(dirpath, dirnames, filenames)]. *)
Fixpoint os_walk (top : string) (tree : dirtree)
  : list (string * list string * list string) :=
  match tree with
  | Dir subdirs nondirs =>
      (top, subdirs.*1, nondirs)
      :: flat_map (λ sub, os_walk (path_join top sub.1) sub.2) subdirs
  end.

(** [exclude and any(e in dirpath for e in exclude)]; [None] and the empty
    list are both falsy. *)
Definition excluded (exclude : option (list string)) (dirpath : string) : bool :=
  match exclude with
  | None => false
  | Some [] => false
  | Some es => existsb (λ e, contains dirpath e) es
  end.

(** The names of the sub-directories of [tree], at every depth, do not start
    with a separator (a directory entry never holds one). *)
Fixpoint plain_names (tree : dirtree) : bool :=
  match tree with
  | Dir subdirs _ =>
      forallb (λ sub, negb (startswith sub.1 "/") && plain_names sub.2) subdirs
  end.

(** [visits top tree dirpath sub]: walking [tree] from [top], [os.walk]
    reaches the directory [sub] and reports it under the path [dirpath]. *)
Inductive visits : string → dirtree → string → dirtree → Prop :=
| visits_top top tree : visits top tree top tree
| visits_sub top subdirs nondirs name sub dirpath tree' :
    (name, sub) ∈ subdirs →
    visits (path_join top name) sub dirpath tree' →
    visits top (Dir subdirs nondirs) dirpath tree'.

Section Pipeline.

(** [os.path.isfile] *)
Variable isfile : string → bool.

(** [open(filename, 'rb')], as in [hasher]. *)
Variable open : string → option (list byte).

(** [hashlib.sha256], as [hashfunc] in [hasher]. *)
Variable sha256 : list byte → string.

(** The body of the outer loop of [filewalker] for one triple of the walk. *)
Definition walk_dir (exclude : option (list string))
    (entry : string * list string * list string) : list string :=
  let '(dirpath, dirnames, filenames) := entry in
  if excluded exclude dirpath then []
  else List.filter isfile (map (path_join dirpath) filenames).

(** [filewalker(path, exclude)], on the directory [tree] found at [path]. *)
Definition filewalker (tree : dirtree) (path : string)
    (exclude : option (list string)) : list string :=
  flat_map (walk_dir exclude) (os_walk path tree).

(** [dupfinder(path, exclude)], on the directory [tree] found at [path]. *)
Definition dupfinder (tree : dirtree) (path : string)
    (exclude : option (list string)) : result (ODict.t (list string)) :=
  (* First pass *)
  let files := filewalker tree path exclude in
  match duplicates sha256 open files SCANSIZE with
  | Raise e => Raise e
  | Ok dups =>
      (* Second pass *)
      let files := flatten dups in
      match duplicates sha256 open files (100 * SCANSIZE) with
      | Raise e => Raise e
      | Ok dups =>
          (* Third pass *)
          let files := flatten dups in
          duplicates sha256 open files 0
      end
  end.

End Pipeline.

(** ** Notions used to state the properties *)

(** The paths that arrive with digest [hash], in arrival order. *)
Definition paths_of (hash : string) (items : list (string * string)) : list string :=
  (filter (λ item, item.1 = hash) items).*2.

(** What the loop of [duplicates] has computed once it has consumed [items]:
    the keys of [duplicates] are distinct, a digest has a group exactly when
    it arrived at least twice, the group being its paths in arrival order,
    and [candidates] holds the first path of every digest that arrived. *)
Record grouped (items : list (string * string))
    (st : gmap string string * ODict.t (list string)) : Prop := {
  grouped_keys : NoDup (ODict.keys st.2);
  grouped_get : ∀ h, ODict.get h st.2 =
    if decide (2 ≤ length (paths_of h items))%nat then Some (paths_of h items) else None;
  grouped_candidates : ∀ h, st.1 !! h = head (paths_of h items)
}.

(** [filename] can be opened and read. *)
Definition readable (open : string → option (list byte)) (filename : string) : Prop :=
  is_Some (open filename).

(** The pair [hasher] yields for a readable file. *)
Definition item_of (hashfunc : list byte → string) (open : string → option (list byte))
    (scansize : Z) (filename : string) : string * string :=
  (digest hashfunc scansize (default [] (open filename)), filename).

(** Two paths are members of one group of a mapping. *)
Definition together (dups : ODict.t (list string)) (p1 p2 : string) : Prop :=
  ∃ h g, (h, g) ∈ dups ∧ p1 ∈ g ∧ p2 ∈ g.

(** A path is an unmatched lone candidate: it is stored in [candidates]
    under a digest that has no group. *)
Definition lone_candidate (st : gmap string string * ODict.t (list string))
    (filename : string) : Prop :=
  ∃ h, st.1 !! h = Some filename ∧ ODict.get h st.2 = None.

(** ** A concrete file system

    The scenario of the specification, scanned from ["."]: [a.txt] and
    [b.txt] hold 5000 bytes [X], [c.txt] holds 4096 bytes [X] and one [Y],
    [d.txt] holds one [Z]. *)

Definition scenario_tree : dirtree :=
  Dir [] ["a.txt"; "b.txt"; "c.txt"; "d.txt"].

Definition scenario_open (filename : string) : option (list byte) :=
  if decide (filename = "./a.txt") then Some (replicate 5000 x58)
  else if decide (filename = "./b.txt") then Some (replicate 5000 x58)
  else if decide (filename = "./c.txt") then Some (replicate 4096 x58 ++ [x59])
  else if decide (filename = "./d.txt") then Some [x5a]
  else None.

(** The same files, with [c.txt] unreadable. *)
Definition locked_open (filename : string) : option (list byte) :=
  if decide (filename = "./c.txt") then None else scenario_open filename.

(** The same files, with [d.txt] unreadable. *)
Definition sealed_open (filename : string) : option (list byte) :=
  if decide (filename = "./d.txt") then None else scenario_open filename.

(** The same files, and [e.txt] with the contents of [d.txt]. *)
Definition short_open (filename : string) : option (list byte) :=
  if decide (filename = "./e.txt") then Some [x5a] else scenario_open filename.

Definition scenario_isfile (filename : string) : bool := true.

(** A collision-free stand-in for a hash function: the data itself. *)
Definition plain (d : list byte) : string := string_of_list_byte d.

(** ** The text output of the command *)

Inductive index_error : Type :=
| IndexError.

(** [list[1:len(list)-1]]: the elements from index 1 up to, not including,
    the last index. *)
Definition middle (members : list string) : list string :=
  take (length members - 1 - 1) (drop 1 members).

(** The body of the loop over [dups.items()] in the text branch of the
    command: the lines printed for one group, and the [IndexError] that
    [list[0]] raises on an empty list before anything is printed. *)
Definition print_group (members : list string) : list string * option index_error :=
  match members with
  | [] => ([], Some IndexError)
  | first :: _ =>
      (["┏ " +:+ first]
       ++ ((λ file, "┃ " +:+ file) <$> middle members)
       ++ ["┗ " +:+ default first (last members)], None)
  end.

(** The loop over [dups.items()]: the lines printed, and the exception that
    ends the loop, if any. *)
Fixpoint print_txt (dups : ODict.t (list string)) : list string * option index_error :=
  match dups with
  | [] => ([], None)
  | (hash, members) :: rest =>
      match print_group members with
      | (lines, Some e) => (lines, Some e)
      | (lines, None) =>
          let '(more, e) := print_txt rest in
          (lines ++ more, e)
      end
  end.

(** ** Directory trees of a file system *)

(** A name a directory entry can have: not empty, and without a separator. *)
Definition entry_name (name : string) : bool :=
  negb (bool_decide (name = EmptyString)) && negb (contains name "/").

(** At every depth of [tree] the entries of a directory have proper names
    that differ from one another. *)
Fixpoint proper_tree (tree : dirtree) : bool :=
  match tree with
  | Dir subdirs nondirs =>
      forallb entry_name (subdirs.*1 ++ nondirs)
      && bool_decide (NoDup (subdirs.*1 ++ nondirs))
      && forallb (λ sub, proper_tree sub.2) subdirs
  end.

(** What [os.path.join] puts before a name that does not start with a
    separator. *)
Definition join_base (top : string) : string :=
  if decide (top = EmptyString) then top
  else if endswith_sep top then top
  else top +:+ "/".

(** The paths of the entries that are no directories, relative to the top
    of the walk, in the order of the walk. *)
Fixpoint rel_paths (tree : dirtree) : list string :=
  match tree with
  | Dir subdirs nondirs =>
      nondirs
      ++ flat_map (λ sub, (λ r, sub.1 +:+ "/" +:+ r) <$> rel_paths sub.2) subdirs
  end.

(** The joined paths of all entries that are no directories, as [filewalker]
    forms them before it tests [os.path.isfile]. *)
Definition all_paths (top : string) (tree : dirtree) : list string :=
  flat_map (λ entry, path_join entry.1.1 <$> entry.2) (os_walk top tree).

(** * Properties *)

(** ** Ordered dictionaries *)

Module ODictFacts.
Import ODict.
Section Facts.
Context {V : Type}.
Implicit Types (d : ODict.t V) (k : string) (v : V).

Lemma get_set_eq k v d : get k (set k v d) = Some v.
Proof.
  induction d as [|[k' v'] d IH]; simpl.
  - by rewrite decide_True.
  - destruct (decide (k = k')) as [->|Hne]; simpl.
    + by rewrite decide_True.
    + by rewrite decide_False.
Qed.

Lemma get_set_ne k k' v d : k ≠ k' → get k' (set k v d) = get k' d.
Proof.
  intros Hne. induction d as [|[k0 v0] d IH]; simpl.
  - by rewrite decide_False.
  - destruct (decide (k = k0)) as [->|Hne0]; simpl.
    + by rewrite !decide_False.
    + by rewrite IH.
Qed.

Lemma get_None k d : get k d = None ↔ k ∉ keys d.
Proof.
  unfold keys. induction d as [|[k' v'] d IH]; simpl.
  - split; [intros _; apply not_elem_of_nil | done].
  - rewrite not_elem_of_cons. destruct (decide (k = k')) as [->|Hne].
    + split; [done | by intros [? _]].
    + rewrite IH. split; [done | by intros [_ ?]].
Qed.

Lemma get_Some_elem k v d : get k d = Some v → (k, v) ∈ d.
Proof.
  induction d as [|[k' v'] d IH]; simpl; [done|].
  destruct (decide (k = k')) as [->|]; intros H.
  - injection H as ->. apply elem_of_cons; by left.
  - apply elem_of_cons; right; auto.
Qed.

Lemma elem_get k v d : NoDup (keys d) → (k, v) ∈ d → get k d = Some v.
Proof.
  unfold keys. induction d as [|[k' v'] d IH]; simpl.
  - intros _ H. by apply elem_of_nil in H.
  - rewrite NoDup_cons. intros [Hk Hd] [Heq|Hin]%elem_of_cons.
    + injection Heq as -> ->. by rewrite decide_True.
    + rewrite decide_False; [auto|]. intros ->. apply Hk.
      apply list_elem_of_fmap. by exists (k', v).
Qed.

Lemma set_fresh k v d : get k d = None → set k v d = d ++ [(k, v)].
Proof.
  induction d as [|[k' v'] d IH]; simpl; [done|].
  destruct (decide (k = k')); [done|]. intros H. by rewrite IH.
Qed.

Lemma keys_set_present k v d : is_Some (get k d) → keys (set k v d) = keys d.
Proof.
  unfold keys. induction d as [|[k' v'] d IH]; simpl.
  - by intros [? ?].
  - destruct (decide (k = k')); [done|]. intros H. simpl. f_equal. by apply IH.
Qed.

Lemma keys_set_fresh k v d : get k d = None → keys (set k v d) = keys d ++ [k].
Proof. intros H. rewrite set_fresh by done. unfold keys. by rewrite fmap_app. Qed.

Lemma get_all_None d : (∀ k, get k d = None) → d = [].
Proof.
  destruct d as [|[k v] d]; [done|]. intros H. specialize (H k).
  simpl in H. by rewrite decide_True in H.
Qed.


End Facts.
End ODictFacts.

(** ** The grouping loop *)

Section GroupingFacts.
Import ODict ODictFacts.

Lemma paths_of_app h xs ys : paths_of h (xs ++ ys) = paths_of h xs ++ paths_of h ys.
Proof. unfold paths_of. by rewrite filter_app, fmap_app. Qed.

Lemma paths_of_snoc_eq h p xs : paths_of h (xs ++ [(h, p)]) = paths_of h xs ++ [p].
Proof.
  rewrite paths_of_app. f_equal. unfold paths_of.
  rewrite filter_cons_True by done. by rewrite filter_nil.
Qed.

Lemma paths_of_snoc_ne h h' p xs : h' ≠ h → paths_of h (xs ++ [(h', p)]) = paths_of h xs.
Proof.
  intros Hne. rewrite paths_of_app. unfold paths_of at 2.
  rewrite filter_cons_False by done. rewrite filter_nil. simpl. by rewrite app_nil_r.
Qed.

Lemma elem_of_paths_of h p xs : p ∈ paths_of h xs ↔ (h, p) ∈ xs.
Proof.
  unfold paths_of. rewrite list_elem_of_fmap. split.
  - intros [[h' p'] [-> [Hh Hin]%list_elem_of_filter]]. simpl in *. by subst.
  - intros Hin. exists (h, p). split; [done|]. by apply list_elem_of_filter.
Qed.

Lemma grouped_nil : grouped [] (∅, ODict.empty).
Proof. split; simpl; [constructor | done | intros h; apply lookup_empty]. Qed.

Lemma grouped_step items st x :
  grouped items st → grouped (items ++ [x]) (group_step st x).
Proof.
  destruct st as [c d], x as [h p]. intros [Hk Hg Hc]. simpl in *.
  pose proof (Hg h) as Hgh. pose proof (Hc h) as Hch.
  destruct (get h d) as [members|] eqn:Hget.
  - (* append to an existing group *)
    case_decide as Hlen; [|done]. injection Hgh as ->.
    split; simpl.
    + rewrite keys_set_present; [done | by rewrite Hget].
    + intros h'. destruct (decide (h = h')) as [<-|Hne].
      * rewrite get_set_eq, paths_of_snoc_eq, decide_True; [done|].
        rewrite length_app. lia.
      * rewrite get_set_ne, paths_of_snoc_ne by done. apply Hg.
    + intros h'. rewrite Hc. destruct (decide (h = h')) as [<-|Hne].
      * rewrite paths_of_snoc_eq. destruct (paths_of h items); [simpl in Hlen; lia | done].
      * by rewrite paths_of_snoc_ne.
  - case_decide as Hlen; [done|]. clear Hgh.
    destruct (c !! h) as [first|] eqn:Hcand.
    + (* promote the lone candidate *)
      assert (paths_of h items = [first]) as Hpaths.
      { destruct (paths_of h items) as [|q [|q' l]]; simpl in *; [done | congruence | lia]. }
      split; simpl.
      * rewrite keys_set_fresh by done. apply NoDup_app. split_and!; [done | | apply NoDup_singleton].
        intros k Hk1 ->%list_elem_of_singleton. by apply get_None in Hget.
      * intros h'. destruct (decide (h = h')) as [<-|Hne].
        -- by rewrite get_set_eq, paths_of_snoc_eq, Hpaths.
        -- rewrite get_set_ne, paths_of_snoc_ne by done. apply Hg.
      * intros h'. rewrite Hc. destruct (decide (h = h')) as [<-|Hne].
        -- by rewrite paths_of_snoc_eq, Hpaths.
        -- by rewrite paths_of_snoc_ne.
    + (* a new lone candidate *)
      assert (paths_of h items = []) as Hpaths.
      { destruct (paths_of h items); [done | simpl in Hch; congruence]. }
      split; simpl.
      * done.
      * intros h'. destruct (decide (h = h')) as [<-|Hne].
        -- rewrite paths_of_snoc_eq, Hpaths. simpl. by rewrite Hget.
        -- rewrite paths_of_snoc_ne by done. apply Hg.
      * intros h'. destruct (decide (h = h')) as [<-|Hne].
        -- by rewrite lookup_insert_eq, paths_of_snoc_eq, Hpaths.
        -- rewrite lookup_insert_ne, paths_of_snoc_ne by done. apply Hc.
Qed.

Lemma group_loop_snoc items x :
  group_loop (items ++ [x]) = group_step (group_loop items) x.
Proof. unfold group_loop. by rewrite foldl_app. Qed.

Lemma group_loop_grouped items : grouped items (group_loop items).
Proof.
  induction items as [|x items IH] using rev_ind.
  - apply grouped_nil.
  - rewrite group_loop_snoc. by apply grouped_step.
Qed.

End GroupingFacts.

(** ** One pass *)

Section PassFacts.
Import ODict ODictFacts.
Variable hashfunc : list byte → string.
Variable open : string → option (list byte).
Implicit Types (files : list string) (scansize : Z).

Lemma hasher_readable files scansize :
  Forall (readable open) files →
  hasher hashfunc open files scansize = (item_of hashfunc open scansize <$> files, None).
Proof.
  induction 1 as [|f files [c Hc] _ IH]; simpl; [done|].
  rewrite Hc, IH. unfold item_of. by rewrite Hc.
Qed.

Lemma hasher_unreadable pre f post scansize :
  Forall (readable open) pre → open f = None →
  hasher hashfunc open (pre ++ f :: post) scansize
  = (item_of hashfunc open scansize <$> pre, Some (OSError f)).
Proof.
  intros Hpre Hf. induction Hpre as [|g pre [c Hc] _ IH]; simpl.
  - by rewrite Hf.
  - rewrite Hc, IH. unfold item_of. by rewrite Hc.
Qed.

(** Either every file is readable, or there is a first one that is not. *)
Lemma first_unreadable files :
  Forall (readable open) files ∨
  ∃ pre f post, files = pre ++ f :: post ∧ Forall (readable open) pre ∧ open f = None.
Proof.
  induction files as [|g files IH]; [by left|].
  destruct (open g) as [c|] eqn:Hg.
  - destruct IH as [IH|(pre & f & post & -> & Hpre & Hf)].
    + left. constructor; [by exists c | done].
    + right. exists (g :: pre), f, post. split_and!; [done | | done].
      constructor; [by exists c | done].
  - right. by exists [], g, files.
Qed.

Lemma hasher_no_exception files scansize items :
  hasher hashfunc open files scansize = (items, None) →
  Forall (readable open) files ∧ items = item_of hashfunc open scansize <$> files.
Proof.
  intros H. destruct (first_unreadable files) as [Hall|(pre & f & post & -> & Hpre & Hf)].
  - rewrite hasher_readable in H by done. split; [done | congruence].
  - rewrite hasher_unreadable in H by done. congruence.
Qed.

Lemma item_of_paths files scansize : (item_of hashfunc open scansize <$> files).*2 = files.
Proof. induction files as [|f files IH]; [done|]. rewrite !fmap_cons. simpl. by f_equal. Qed.

Lemma duplicates_readable files scansize :
  Forall (readable open) files →
  duplicates hashfunc open files scansize
  = Ok (group_loop (item_of hashfunc open scansize <$> files)).2.
Proof. intros H. unfold duplicates. by rewrite hasher_readable. Qed.

Lemma duplicates_unreadable pre f post scansize :
  Forall (readable open) pre → open f = None →
  duplicates hashfunc open (pre ++ f :: post) scansize = Raise (OSError f).
Proof. intros Hpre Hf. unfold duplicates. by rewrite hasher_unreadable. Qed.

Lemma duplicates_Ok_readable files scansize dups :
  duplicates hashfunc open files scansize = Ok dups → Forall (readable open) files.
Proof.
  intros H. destruct (first_unreadable files) as [Hall|(pre & f & post & -> & Hpre & Hf)]; [done|].
  by rewrite duplicates_unreadable in H.
Qed.

(** The groups of a pass over readable files. *)
Lemma paths_of_item_of h files scansize :
  paths_of h (item_of hashfunc open scansize <$> files)
  = filter (λ f, (item_of hashfunc open scansize f).1 = h) files.
Proof.
  unfold paths_of. induction files as [|f files IH]; [done|].
  rewrite fmap_cons, !filter_cons. case_decide; [rewrite fmap_cons; simpl; f_equal|]; apply IH.
Qed.

Lemma pass_entry files scansize dups h g :
  duplicates hashfunc open files scansize = Ok dups →
  (h, g) ∈ dups ↔
  g = filter (λ f, (item_of hashfunc open scansize f).1 = h) files ∧ (2 ≤ length g)%nat.
Proof.
  intros Hd. pose proof (duplicates_Ok_readable _ _ _ Hd) as Hall.
  rewrite duplicates_readable in Hd by done. injection Hd as <-.
  destruct (group_loop_grouped (item_of hashfunc open scansize <$> files)) as [Hk Hg _].
  rewrite <- paths_of_item_of. split.
  - intros Hin%elem_get; [|done]. rewrite Hg in Hin. case_decide; [|done].
    injection Hin as <-. done.
  - intros [-> Hlen]. apply get_Some_elem. rewrite Hg. by rewrite decide_True.
Qed.

Lemma pass_keys_NoDup files scansize dups :
  duplicates hashfunc open files scansize = Ok dups → NoDup (keys dups).
Proof.
  intros Hd. pose proof (duplicates_Ok_readable _ _ _ Hd) as Hall.
  rewrite duplicates_readable in Hd by done. injection Hd as <-.
  apply group_loop_grouped.
Qed.

Lemma elem_of_concat {A} (x : A) (ls : list (list A)) :
  x ∈ concat ls ↔ ∃ l, x ∈ l ∧ l ∈ ls.
Proof.
  induction ls as [|l ls IH]; simpl.
  - split; [by intros ?%elem_of_nil | by intros (l & _ & ?%elem_of_nil)].
  - rewrite elem_of_app, IH. split.
    + intros [H|(l' & H1 & H2)]; [exists l | exists l']; rewrite elem_of_cons; auto.
    + intros (l' & H1 & [->|H2]%elem_of_cons); [by left | right; by exists l'].
Qed.

Lemma elem_of_flatten (dups : ODict.t (list string)) p :
  p ∈ flatten dups ↔ ∃ h g, (h, g) ∈ dups ∧ p ∈ g.
Proof.
  unfold flatten, values. rewrite elem_of_concat. split.
  - intros (g & Hp & [[h g'] [-> Hin]]%list_elem_of_fmap). by exists h, g'.
  - intros (h & g & Hin & Hp). exists g. split; [done|].
    apply list_elem_of_fmap. by exists (h, g).
Qed.

Lemma pass_flatten_subset files scansize dups p :
  duplicates hashfunc open files scansize = Ok dups → p ∈ flatten dups → p ∈ files.
Proof.
  intros Hd (h & g & Hin & Hp)%elem_of_flatten.
  apply (pass_entry _ _ _ _ _ Hd) in Hin as [-> _].
  by apply list_elem_of_filter in Hp as [_ ?].
Qed.

Lemma pass_flatten_readable files scansize dups :
  duplicates hashfunc open files scansize = Ok dups → Forall (readable open) (flatten dups).
Proof.
  intros Hd. pose proof (duplicates_Ok_readable _ _ _ Hd) as Hall.
  rewrite Forall_forall in *. intros p Hp. apply Hall. by eapply pass_flatten_subset.
Qed.

(** Two distinct files with one digest end up in one group. *)
Lemma pass_together files scansize dups p1 p2 :
  duplicates hashfunc open files scansize = Ok dups →
  p1 ∈ files → p2 ∈ files → p1 ≠ p2 →
  (item_of hashfunc open scansize p1).1 = (item_of hashfunc open scansize p2).1 →
  let h := (item_of hashfunc open scansize p1).1 in
  let g := filter (λ f, (item_of hashfunc open scansize f).1 = h) files in
  (h, g) ∈ dups ∧ p1 ∈ g ∧ p2 ∈ g.
Proof.
  intros Hd H1 H2 Hne Heq h g.
  assert (p1 ∈ g) as Hg1 by by apply list_elem_of_filter.
  assert (p2 ∈ g) as Hg2 by by apply list_elem_of_filter.
  split_and!; [|done..]. apply (pass_entry _ _ _ _ _ Hd). split; [done|].
  destruct g as [|q1 [|q2 g]]; simpl; [by apply elem_of_nil in Hg1 | | lia].
  apply list_elem_of_singleton in Hg1, Hg2. congruence.
Qed.

End PassFacts.

(** ** Groups are disjoint *)

Section GroupDisjointness.
Import ODict ODictFacts.

Lemma grouped_entry items st h g :
  grouped items st → (h, g) ∈ st.2 ↔ g = paths_of h items ∧ (2 ≤ length g)%nat.
Proof.
  intros [Hk Hg _]. split.
  - intros Hin%elem_get; [|done]. rewrite Hg in Hin. case_decide; [|done].
    by injection Hin as <-.
  - intros [-> Hlen]. apply get_Some_elem. rewrite Hg. by rewrite decide_True.
Qed.

Lemma grouped_values items st :
  grouped items st → values st.2 = (λ h, paths_of h items) <$> keys st.2.
Proof.
  intros Hgr. unfold values, keys.
  assert (∀ e, e ∈ st.2 → e.2 = paths_of e.1 items) as Hall.
  { intros [h g] Hin. by apply (grouped_entry _ _ _ _ Hgr) in Hin as [-> _]. }
  induction st.2 as [|e d IH]; [done|]. rewrite !fmap_cons. f_equal.
  - apply Hall, elem_of_cons; by left.
  - apply IH. intros e' He'. apply Hall, elem_of_cons; by right.
Qed.

Lemma paths_of_sublist h items : paths_of h items `sublist_of` items.*2.
Proof. unfold paths_of. apply fmap_sublist, sublist_filter. Qed.

Lemma NoDup_snd_functional {A B} (l : list (A * B)) x1 x2 y :
  NoDup l.*2 → (x1, y) ∈ l → (x2, y) ∈ l → x1 = x2.
Proof.
  induction l as [|[a b] l IH]; [by intros _ ?%elem_of_nil|].
  rewrite fmap_cons, NoDup_cons. simpl. intros [Hb Hl] H1 H2.
  assert (∀ x, (x, y) ∈ l → y ∈ l.*2) as Hsnd.
  { intros x Hx. apply list_elem_of_fmap. by exists (x, y). }
  apply elem_of_cons in H1 as [H1|H1], H2 as [H2|H2].
  - congruence.
  - injection H1 as -> ->. by apply Hsnd in H2.
  - injection H2 as -> ->. by apply Hsnd in H1.
  - by apply IH.
Qed.

(** Groups of distinct digests share no path, and no group repeats one,
    when the paths that arrived are distinct. *)
Lemma NoDup_groups items (ks : list string) :
  NoDup items.*2 → NoDup ks → NoDup (concat ((λ h, paths_of h items) <$> ks)).
Proof.
  intros Hitems. induction 1 as [|k ks Hk Hks IH]; simpl; [constructor|].
  apply NoDup_app. split_and!; [| |done].
  - eapply sublist_NoDup; [exact Hitems | apply paths_of_sublist].
  - intros p Hp (g & Hpg & (k' & -> & Hk')%list_elem_of_fmap)%elem_of_concat.
    apply elem_of_paths_of in Hp, Hpg.
    assert (k = k') as <-; [|done].
    by eapply NoDup_snd_functional.
Qed.

Lemma grouped_flatten_NoDup items st :
  grouped items st → NoDup items.*2 → NoDup (flatten st.2).
Proof.
  intros Hgr Hnd. unfold flatten. rewrite (grouped_values _ _ Hgr).
  apply NoDup_groups; [done | apply Hgr].
Qed.

Lemma grouped_flatten items st p :
  grouped items st →
  p ∈ flatten st.2 ↔ ∃ h, (h, p) ∈ items ∧ (2 ≤ length (paths_of h items))%nat.
Proof.
  intros Hgr. rewrite elem_of_flatten. split.
  - intros (h & g & [-> Hlen]%(grouped_entry _ _ _ _ Hgr) & Hp).
    exists h. by rewrite <- elem_of_paths_of.
  - intros (h & Hin & Hlen). exists h, (paths_of h items). split.
    + by apply (grouped_entry _ _ _ _ Hgr).
    + by apply elem_of_paths_of.
Qed.

(** With distinct paths, a path that arrived is either the unmatched lone
    candidate of its digest or a member of a group, never both. *)
Lemma grouped_lone_or_member items st h p :
  grouped items st → NoDup items.*2 → (h, p) ∈ items →
  (lone_candidate st p ∧ p ∉ flatten st.2) ∨ (¬ lone_candidate st p ∧ p ∈ flatten st.2).
Proof.
  intros Hgr Hnd Hin.
  assert (∀ h', (h', p) ∈ items → h' = h) as Hfun.
  { intros h' Hin'. by eapply NoDup_snd_functional. }
  destruct (decide (2 ≤ length (paths_of h items))%nat) as [Hlen|Hlen].
  - right. split; [|apply (grouped_flatten _ _ _ Hgr); eauto].
    intros (h' & Hc & Hg). rewrite (grouped_candidates _ _ Hgr) in Hc.
    assert (h' = h) as ->.
    { apply Hfun, elem_of_paths_of. destruct (paths_of h' items) as [|q l]; [done|].
      injection Hc as ->. apply elem_of_cons; by left. }
    rewrite (grouped_get _ _ Hgr), decide_True in Hg; done.
  - left. split.
    + exists h. rewrite (grouped_candidates _ _ Hgr), (grouped_get _ _ Hgr), decide_False by done.
      split; [|done]. apply elem_of_paths_of in Hin.
      destruct (paths_of h items) as [|q [|q' l]]; simpl in *;
        [by apply elem_of_nil in Hin | by apply list_elem_of_singleton in Hin as -> | lia].
    + intros (h' & Hin' & Hlen')%(grouped_flatten _ _ _ Hgr).
      by rewrite (Hfun _ Hin') in Hlen'.
Qed.

End GroupDisjointness.

(** ** The hasher as a generator *)

Section HasherFacts.
Import ODict ODictFacts.

Lemma duplicates_unfold hashfunc open files scansize :
  duplicates hashfunc open files scansize =
  match (hasher hashfunc open files scansize).2 with
  | Some e => Raise e
  | None => Ok (group_loop (hasher hashfunc open files scansize).1).2
  end.
Proof. unfold duplicates. by destruct (hasher hashfunc open files scansize) as [items [e|]]. Qed.

Lemma duplicates_nil hashfunc open scansize : duplicates hashfunc open [] scansize = Ok [].
Proof. done. Qed.

Lemma keys_set {V} k (v : V) d :
  keys (set k v d) = match get k d with Some _ => keys d | None => keys d ++ [k] end.
Proof.
  destruct (get k d) eqn:Hg.
  - apply keys_set_present. by rewrite Hg.
  - by apply keys_set_fresh.
Qed.

Lemma paths_of_distinct h items : NoDup items.*1 → (length (paths_of h items) ≤ 1)%nat.
Proof.
  unfold paths_of. rewrite length_fmap.
  induction items as [|[k p] items IH]; [simpl; lia|].
  rewrite fmap_cons, NoDup_cons. simpl. intros [Hk Hnd].
  rewrite filter_cons. simpl. case_decide as Hkh; [|by apply IH].
  subst k. destruct (filter (λ item, item.1 = h) items) as [|[k' p'] l] eqn:Hf; [simpl; lia|].
  assert ((k', p') ∈ filter (λ item : string * string, item.1 = h) items) as Hin.
  { rewrite Hf. apply elem_of_cons; by left. }
  apply list_elem_of_filter in Hin as [Hk' Hin]. simpl in Hk'. subst k'.
  exfalso. apply Hk, list_elem_of_fmap. by exists (h, p').
Qed.

(** The paths a generator has yielded are a prefix of its input. *)
Lemma hasher_paths hashfunc open files scansize :
  (hasher hashfunc open files scansize).1.*2 `prefix_of` files
  ∧ ((hasher hashfunc open files scansize).2 = None →
     (hasher hashfunc open files scansize).1.*2 = files)
  ∧ (hasher hashfunc open files scansize).1
    = item_of hashfunc open scansize <$> (hasher hashfunc open files scansize).1.*2.
Proof.
  destruct (first_unreadable open files) as [Hall|(pre & f & post & -> & Hpre & Hf)].
  - rewrite hasher_readable by done. simpl. rewrite item_of_paths. done.
  - rewrite hasher_unreadable by done. simpl. rewrite item_of_paths.
    split_and!; [by eexists | done | done].
Qed.

Lemma hasher_paths_NoDup hashfunc open files scansize :
  NoDup files → NoDup (hasher hashfunc open files scansize).1.*2.
Proof.
  intros Hnd. destruct (hasher_paths hashfunc open files scansize) as [[post Hpre] _].
  rewrite Hpre in Hnd. by apply NoDup_app in Hnd as [? _].
Qed.

End HasherFacts.

(** C5.  [duplicates] consumes the (digest, path) pairs in arrival order,
    one [group_step] per pair, by the three-case rule: a digest that already
    has a group gets the path appended to it, in place; a digest that only
    has a stored candidate gets a new group, last in the mapping, holding
    the stored candidate and then the new path; any other digest gets the
    path recorded as its candidate.  At the end a digest has a group exactly
    when it arrived at least twice, the group lists the paths that arrived
    with it in arrival order, and a digest seen once has no group. *)
Theorem duplicates_three_case_rule :
  (∀ candidates dups hash filename,
     group_step (candidates, dups) (hash, filename) =
     match ODict.get hash dups with
     | Some members => (candidates, ODict.set hash (members ++ [filename]) dups)
     | None =>
         match candidates !! hash with
         | Some first => (candidates, dups ++ [(hash, [first; filename])])
         | None => (<[hash := filename]> candidates, dups)
         end
     end)
  ∧ (∀ hash (members : list string) dups,
       ODict.get hash (ODict.set hash members dups) = Some members
       ∧ ODict.keys (ODict.set hash members dups) =
         match ODict.get hash dups with
         | Some _ => ODict.keys dups
         | None => ODict.keys dups ++ [hash]
         end)
  ∧ (group_loop [] = (∅, [])
     ∧ ∀ items item, group_loop (items ++ [item]) = group_step (group_loop items) item)
  ∧ (∀ items hash,
       ODict.get hash (group_loop items).2 =
       if decide (2 ≤ length (paths_of hash items))%nat
       then Some (paths_of hash items) else None)
  ∧ (∀ items hash members,
       (hash, members) ∈ (group_loop items).2 ↔
       members = paths_of hash items ∧ (2 ≤ length members)%nat)
  ∧ (∀ items hash, paths_of hash items `sublist_of` items.*2)
  ∧ (∀ hashfunc open files scansize,
       duplicates hashfunc open files scansize =
       match (hasher hashfunc open files scansize).2 with
       | Some e => Raise e
       | None => Ok (group_loop (hasher hashfunc open files scansize).1).2
       end).
Proof.
  split_and!.
  - intros c d h p. simpl. destruct (ODict.get h d) eqn:Hg; [done|].
    destruct (c !! h); [|done]. by rewrite ODictFacts.set_fresh.
  - intros h g d. split; [apply ODictFacts.get_set_eq | apply keys_set].
  - done.
  - apply group_loop_snoc.
  - intros items h. apply (grouped_get _ _ (group_loop_grouped items)).
  - intros items h g. apply grouped_entry, group_loop_grouped.
  - intros items h. apply paths_of_sublist.
  - apply duplicates_unfold.
Qed.

(** C9.  In a pass over pairwise distinct paths no path occurs twice in the
    groups, neither in two groups nor twice in one; and every path the pass
    has hashed is in exactly one place: either it is an unmatched lone
    candidate and in no group, or it is no lone candidate and a member of
    the group at exactly one position of the mapping. *)
Theorem each_path_in_one_place hashfunc open files scansize :
  NoDup files →
  let items := (hasher hashfunc open files scansize).1 in
  let st := group_loop items in
  NoDup (flatten st.2)
  ∧ (∀ hash members, (hash, members) ∈ st.2 → NoDup members)
  ∧ (∀ filename, filename ∈ items.*2 →
       (lone_candidate st filename ∧ filename ∉ flatten st.2)
       ∨ (¬ lone_candidate st filename
          ∧ ∃ i, (∃ hash members, st.2 !! i = Some (hash, members) ∧ filename ∈ members)
               ∧ ∀ j hash members,
                   st.2 !! j = Some (hash, members) → filename ∈ members → j = i))
  ∧ ((hasher hashfunc open files scansize).2 = None →
       items.*2 = files ∧ duplicates hashfunc open files scansize = Ok st.2).
Proof.
  intros Hnd items st.
  pose proof (group_loop_grouped items) as Hgr. fold st in Hgr.
  pose proof (hasher_paths_NoDup hashfunc open files scansize Hnd) as Hpaths.
  fold items in Hpaths.
  split_and!.
  - by apply (grouped_flatten_NoDup items).
  - intros h g [-> _]%(grouped_entry _ _ _ _ Hgr).
    eapply sublist_NoDup; [exact Hpaths | apply paths_of_sublist].
  - intros p ([h p'] & -> & Hin)%list_elem_of_fmap. simpl.
    destruct (grouped_lone_or_member items st h p' Hgr Hpaths Hin) as [?|[Hlone Hmem]];
      [by left | right]. split; [done|].
    apply elem_of_flatten in Hmem as (h1 & g1 & [i Hi]%list_elem_of_lookup & Hp1).
    exists i. split; [by exists h1, g1|]. intros j h2 g2 Hj Hp2.
    assert (h2 = h1) as ->.
    { apply list_elem_of_lookup_2 in Hi, Hj.
      apply (grouped_entry _ _ _ _ Hgr) in Hi as [-> _], Hj as [-> _].
      apply elem_of_paths_of in Hp1, Hp2. by eapply NoDup_snd_functional. }
    apply (NoDup_lookup (ODict.keys st.2) j i h1); [apply Hgr | |];
      unfold ODict.keys; rewrite list_lookup_fmap;
      [exact (f_equal (fmap fst) Hj) | exact (f_equal (fmap fst) Hi)].
  - intros He. split; [by apply hasher_paths|].
    rewrite duplicates_unfold. by rewrite He.
Qed.

Lemma each_path_in_one_place_witness :
  NoDup ["./a.txt"; "./b.txt"; "./c.txt"; "./d.txt"]
  ∧ NoDup (flatten (group_loop (hasher plain scenario_open
             ["./a.txt"; "./b.txt"; "./c.txt"; "./d.txt"] SCANSIZE).1).2).
Proof.
  assert (NoDup ["./a.txt"; "./b.txt"; "./c.txt"; "./d.txt"]) as Hnd.
  { apply (bool_decide_unpack _). vm_compute. exact I. }
  split; [exact Hnd|].
  exact (proj1 (each_path_in_one_place plain scenario_open _ SCANSIZE Hnd)).
Defined.

Lemma dupfinder_passes isfile open sha256 tree path exclude :
  dupfinder isfile open sha256 tree path exclude
  = passes sha256 open SCANSIZE (100 * SCANSIZE) (filewalker isfile tree path exclude).
Proof. done. Qed.

(** The scenario of the specification: the first pass groups [a.txt],
    [b.txt] and [c.txt], and the final mapping is the one group of [a.txt]
    and [b.txt]. *)
Example scenario_result :
  duplicates plain scenario_open
    (filewalker scenario_isfile scenario_tree "." None) SCANSIZE
  = Ok [(plain (replicate 4096 x58), ["./a.txt"; "./b.txt"; "./c.txt"])]
  ∧ dupfinder scenario_isfile scenario_open plain scenario_tree "." None
    = Ok [(plain (replicate 5000 x58), ["./a.txt"; "./b.txt"])].
Proof. split; vm_compute; reflexivity. Qed.

(** C8.  A pass over no paths returns the empty mapping; a pass that
    completes with pairwise distinct digests returns the empty mapping; and
    when the first, the second or the third pass of [dupfinder] returns the
    empty mapping, so does [dupfinder]. *)
Theorem empty_pass_empty_result :
  (∀ hashfunc open scansize, duplicates hashfunc open [] scansize = Ok [])
  ∧ (∀ hashfunc open files scansize items,
       hasher hashfunc open files scansize = (items, None) →
       NoDup items.*1 →
       duplicates hashfunc open files scansize = Ok [])
  ∧ (∀ isfile open sha256 tree path exclude,
       let files := filewalker isfile tree path exclude in
       (duplicates sha256 open files SCANSIZE = Ok [] →
        dupfinder isfile open sha256 tree path exclude = Ok [])
       ∧ (∀ dups1,
            duplicates sha256 open files SCANSIZE = Ok dups1 →
            duplicates sha256 open (flatten dups1) (100 * SCANSIZE) = Ok [] →
            dupfinder isfile open sha256 tree path exclude = Ok [])
       ∧ (∀ dups1 dups2,
            duplicates sha256 open files SCANSIZE = Ok dups1 →
            duplicates sha256 open (flatten dups1) (100 * SCANSIZE) = Ok dups2 →
            duplicates sha256 open (flatten dups2) 0 = Ok [] →
            dupfinder isfile open sha256 tree path exclude = Ok [])).
Proof.
  split_and!.
  - done.
  - intros hashfunc open files scansize items Hh Hnd.
    rewrite duplicates_unfold, Hh. simpl. f_equal.
    apply ODictFacts.get_all_None. intros h.
    rewrite (grouped_get _ _ (group_loop_grouped items)).
    pose proof (paths_of_distinct h items Hnd). case_decide; [lia | done].
  - intros isfile open sha256 tree path exclude files. unfold dupfinder. fold files.
    split_and!.
    + by intros ->.
    + by intros dups1 -> ->.
    + by intros dups1 dups2 -> -> ->.
Qed.

Lemma empty_pass_empty_result_witness :
  hasher plain scenario_open ["./a.txt"; "./c.txt"; "./d.txt"] 0
  = ([(plain (replicate 5000 x58), "./a.txt");
      (plain (replicate 4096 x58 ++ [x59]), "./c.txt");
      (plain [x5a], "./d.txt")], None)
  ∧ duplicates plain scenario_open ["./a.txt"; "./c.txt"; "./d.txt"] 0 = Ok []
  ∧ dupfinder scenario_isfile scenario_open plain (Dir [] ["c.txt"; "d.txt"]) "." None = Ok [].
Proof.
  assert (hasher plain scenario_open ["./a.txt"; "./c.txt"; "./d.txt"] 0
          = ([(plain (replicate 5000 x58), "./a.txt");
              (plain (replicate 4096 x58 ++ [x59]), "./c.txt");
              (plain [x5a], "./d.txt")], None)) as Hh.
  { vm_compute. reflexivity. }
  destruct empty_pass_empty_result as (_ & Hdistinct & Hpipe).
  split_and!.
  - exact Hh.
  - apply (Hdistinct _ _ _ _ _ Hh). apply (bool_decide_unpack _). vm_compute. exact I.
  - apply Hpipe. vm_compute. reflexivity.
Defined.

(** ** Reading and hashing one file *)

Section ReadFacts.

Lemma file_read_nonneg size file :
  0 ≤ size → file_read size file = (take (Z.to_nat size) file, drop (Z.to_nat size) file).
Proof. intros H. unfold file_read. by rewrite (proj2 (Z.ltb_ge size 0) H). Qed.

Lemma read_blocks_S fuel file :
  read_blocks (S fuel) file =
  match take (Z.to_nat 4096) file with
  | [] => []
  | _ => take (Z.to_nat 4096) file :: read_blocks fuel (drop (Z.to_nat 4096) file)
  end.
Proof. reflexivity. Qed.

Lemma block_size_pos : (0 < Z.to_nat 4096)%nat.
Proof. lia. Qed.

Lemma take_nil_inv {A} n (l : list A) : (0 < n)%nat → take n l = [] → l = [].
Proof. destruct n, l; simpl; [lia | lia | done | done]. Qed.

(** With more rounds than the file has bytes, the loop ends on an empty read
    and the blocks it has read make up the file. *)
Lemma read_blocks_concat fuel file :
  (length file < fuel)%nat → concat (read_blocks fuel file) = file.
Proof.
  pose proof block_size_pos as Hn.
  remember (Z.to_nat 4096) as n eqn:Hn'.
  revert file. induction fuel as [|fuel IH]; intros file Hlen; [lia|].
  rewrite read_blocks_S, <- Hn'.
  destruct (take n file) as [|b bs] eqn:Htake.
  - symmetry. by eapply take_nil_inv.
  - rewrite <- Htake.
    change (concat (?x :: ?y)) with (x ++ concat y).
    rewrite IH.
    + apply take_drop.
    + rewrite length_drop. destruct file; [by destruct n|]. simpl in *. lia.
Qed.

Lemma read_blocks_fuel fuel file :
  (length file < fuel)%nat → read_blocks fuel file = read_blocks (S (length file)) file.
Proof.
  pose proof block_size_pos as Hn.
  remember (Z.to_nat 4096) as n eqn:Hn'.
  assert (∀ fuel1 fuel2 file, (length file < fuel1)%nat → (length file < fuel2)%nat →
            read_blocks fuel1 file = read_blocks fuel2 file) as H; [|intros; apply H; lia].
  clear fuel file. induction fuel1 as [|fuel1 IH]; intros fuel2 file H1 H2; [lia|].
  destruct fuel2 as [|fuel2]; [lia|].
  rewrite !read_blocks_S, <- Hn'.
  destruct (take n file) as [|b bs] eqn:Htake; [done|]. f_equal.
  assert (length (drop n file) < length file)%nat.
  { rewrite length_drop. destruct file; [by destruct n|]. simpl. lia. }
  apply IH; lia.
Qed.

Lemma read_blocks_sizes fuel file :
  Forall (λ b, b ≠ [] ∧ Z.of_nat (length b) ≤ 4096) (read_blocks fuel file)
  ∧ ∀ i b, read_blocks fuel file !! i = Some b →
           is_Some (read_blocks fuel file !! S i) → Z.of_nat (length b) = 4096.
Proof.
  remember (Z.to_nat 4096) as n eqn:Hn'.
  revert file. induction fuel as [|fuel IH]; intros file.
  { split; [constructor | by intros i b ?]. }
  rewrite read_blocks_S, <- Hn'.
  destruct (take n file) as [|x xs] eqn:Htake.
  { split; [constructor | by intros i b ?]. }
  rewrite <- Htake. destruct (IH (drop n file)) as [IH1 IH2]. split.
  - constructor; [|done]. split; [by rewrite Htake|]. rewrite length_take. lia.
  - intros [|i] b Hb Hnext.
    + injection Hb as <-. destruct Hnext as [b' Hb']. simpl in Hb'.
      destruct fuel as [|fuel']; [done|]. rewrite read_blocks_S, <- Hn' in Hb'.
      destruct (take n (drop n file)) eqn:Hd; [done|].
      assert (n < length file)%nat.
      { destruct (decide (n < length file)%nat); [done|].
        rewrite drop_ge in Hd by lia. by destruct n. }
      rewrite length_take. lia.
    + by apply (IH2 i).
Qed.

Lemma foldl_hash_update acc blocks : foldl hash_update acc blocks = acc ++ concat blocks.
Proof.
  revert acc. induction blocks as [|b bs IH]; intros acc; simpl.
  - by rewrite app_nil_r.
  - rewrite IH. unfold hash_update. by rewrite <- app_assoc.
Qed.

Lemma digest_full hashfunc file : digest hashfunc 0 file = hashfunc file.
Proof.
  unfold digest. rewrite decide_False by lia. unfold hexdigest, hash_new.
  rewrite foldl_hash_update. by rewrite read_blocks_concat by lia.
Qed.

Lemma digest_prefix hashfunc scansize file :
  0 < scansize → digest hashfunc scansize file = hashfunc (take (Z.to_nat scansize) file).
Proof.
  intros H. unfold digest. rewrite decide_True by lia.
  by rewrite file_read_nonneg by lia.
Qed.

End ReadFacts.

(** C6.  With [scansize = 0] the hasher reads the file in blocks of 4096
    bytes (every block but the last is full, no block is empty, and together
    they are the whole file) and the digest is that of the entire contents.
    With [scansize > 0] it reads in one read the first [scansize] bytes, or
    the whole file when it is shorter, and hashes exactly those: the digest
    is that of the first [min scansize (length file)] bytes, it is the
    digest of the full contents when the file is not longer than
    [scansize], and two files that agree on those bytes get one digest. *)
Theorem hasher_scan_depth hashfunc scansize file :
  0 < scansize →
  (let blocks := read_blocks (S (length file)) file in
   concat blocks = file
   ∧ (∀ fuel, (length file < fuel)%nat → read_blocks fuel file = blocks)
   ∧ Forall (λ b, b ≠ [] ∧ Z.of_nat (length b) ≤ 4096) blocks
   ∧ (∀ i b, blocks !! i = Some b → is_Some (blocks !! S i) → Z.of_nat (length b) = 4096)
   ∧ digest hashfunc 0 file = hashfunc file)
  ∧ (file_read scansize file).1 = take (Z.to_nat scansize) file
  ∧ Z.of_nat (length (file_read scansize file).1) = Z.min scansize (Z.of_nat (length file))
  ∧ digest hashfunc scansize file
    = hashfunc (take (Z.to_nat (Z.min scansize (Z.of_nat (length file)))) file)
  ∧ (Z.of_nat (length file) ≤ scansize → digest hashfunc scansize file = hashfunc file)
  ∧ (∀ file',
       take (Z.to_nat (Z.min scansize (Z.of_nat (length file)))) file
       = take (Z.to_nat (Z.min scansize (Z.of_nat (length file')))) file' →
       digest hashfunc scansize file = digest hashfunc scansize file')
  ∧ (∀ open filename,
       open filename = Some file →
       hasher hashfunc open [filename] scansize
       = ([(digest hashfunc scansize file, filename)], None)
       ∧ hasher hashfunc open [filename] 0 = ([(hashfunc file, filename)], None)).
Proof.
  intros Hpos.
  assert (∀ f : list byte,
            take (Z.to_nat (Z.min scansize (Z.of_nat (length f)))) f
            = take (Z.to_nat scansize) f) as Hmin.
  { intros f. destruct (decide (scansize ≤ Z.of_nat (length f))).
    - by rewrite Z.min_l.
    - rewrite Z.min_r, Nat2Z.id by lia. by rewrite !take_ge by lia. }
  cbv zeta. split_and!.
  - apply read_blocks_concat. lia.
  - intros fuel. apply read_blocks_fuel.
  - apply read_blocks_sizes.
  - apply read_blocks_sizes.
  - apply digest_full.
  - by rewrite file_read_nonneg by lia.
  - rewrite file_read_nonneg by lia. simpl. rewrite length_take. lia.
  - rewrite Hmin. by apply digest_prefix.
  - intros Hlen. rewrite digest_prefix by done. by rewrite take_ge by lia.
  - intros file'. rewrite !Hmin, !digest_prefix by done. by intros ->.
  - intros open filename Hopen. simpl. rewrite Hopen. by rewrite digest_full.
Qed.

Lemma hasher_scan_depth_witness :
  0 < 2
  ∧ digest plain 2 [x61; x62; x63] = plain [x61; x62]
  ∧ digest plain 2 [x61] = plain [x61]
  ∧ digest plain 0 [x61; x62; x63] = plain [x61; x62; x63].
Proof.
  assert (0 < 2) as Hpos by lia.
  pose proof (hasher_scan_depth plain 2 [x61; x62; x63] Hpos) as (Hfull & _ & _ & Hd & _).
  pose proof (hasher_scan_depth plain 2 [x61] Hpos) as (_ & _ & _ & _ & Hshort & _).
  split_and!.
  - exact Hpos.
  - exact Hd.
  - apply Hshort. simpl. lia.
  - apply Hfull.
Defined.

(** ** The three passes *)

Section PipelineFacts.
Variable hashfunc : list byte → string.
Variable open : string → option (list byte).

(** The members of a group have the digest the group is stored under. *)
Lemma pass_member_digest files scansize dups h g p :
  duplicates hashfunc open files scansize = Ok dups →
  (h, g) ∈ dups → p ∈ g → (item_of hashfunc open scansize p).1 = h.
Proof.
  intros Hd Hin Hp. apply (pass_entry _ _ _ _ _ _ _ Hd) in Hin as [-> _].
  by apply list_elem_of_filter in Hp as [? _].
Qed.

(** A pass over readable files keeps two distinct files with equal contents
    together, and hands them on to the next pass. *)
Lemma pass_keeps_twins files scansize p1 p2 content :
  Forall (readable open) files →
  p1 ∈ files → p2 ∈ files → p1 ≠ p2 →
  open p1 = Some content → open p2 = Some content →
  ∃ dups, duplicates hashfunc open files scansize = Ok dups
    ∧ Forall (readable open) (flatten dups)
    ∧ p1 ∈ flatten dups ∧ p2 ∈ flatten dups
    ∧ ∃ h g, (h, g) ∈ dups ∧ p1 ∈ g ∧ p2 ∈ g.
Proof.
  intros Hall H1 H2 Hne Ho1 Ho2.
  pose proof (duplicates_readable hashfunc open files scansize Hall) as Hd.
  eexists. split; [exact Hd|].
  assert ((item_of hashfunc open scansize p1).1 = (item_of hashfunc open scansize p2).1) as Heq.
  { unfold item_of. simpl. by rewrite Ho1, Ho2. }
  destruct (pass_together _ _ _ _ _ _ _ Hd H1 H2 Hne Heq) as (Hin & Hg1 & Hg2).
  split_and!.
  - by eapply pass_flatten_readable.
  - apply elem_of_flatten. eauto.
  - apply elem_of_flatten. eauto.
  - eauto.
Qed.

End PipelineFacts.

(** C1, the claim as stated fails: [a.txt] and [b.txt] are enumerated and
    hold the same bytes, but [c.txt], enumerated with them, cannot be read;
    the first pass raises at it, whatever the prefix lengths, and
    [dupfinder] returns no mapping for the two paths to be grouped in. *)
Lemma identical_files_lost_to_read_failure :
  filewalker scenario_isfile scenario_tree "." None
  = ["./a.txt"; "./b.txt"; "./c.txt"; "./d.txt"]
  ∧ locked_open "./a.txt" = Some (replicate 5000 x58)
  ∧ locked_open "./b.txt" = Some (replicate 5000 x58)
  ∧ locked_open "./c.txt" = None
  ∧ (∀ scan1 scan2,
       passes plain locked_open scan1 scan2 ["./a.txt"; "./b.txt"; "./c.txt"; "./d.txt"]
       = Raise (OSError "./c.txt"))
  ∧ dupfinder scenario_isfile locked_open plain scenario_tree "." None
    = Raise (OSError "./c.txt").
Proof.
  assert (∀ scansize,
            duplicates plain locked_open
              (["./a.txt"; "./b.txt"] ++ "./c.txt" :: ["./d.txt"]) scansize
            = Raise (OSError "./c.txt")) as Hraise.
  { intros scansize. apply duplicates_unreadable; [|reflexivity].
    apply (bool_decide_unpack _). vm_compute. exact I. }
  split_and!; [reflexivity.. | |].
  - intros scan1 scan2. unfold passes.
    change ["./a.txt"; "./b.txt"; "./c.txt"; "./d.txt"]
      with (["./a.txt"; "./b.txt"] ++ "./c.txt" :: ["./d.txt"]).
    by rewrite Hraise.
  - unfold dupfinder.
    change (filewalker scenario_isfile scenario_tree "." None)
      with (["./a.txt"; "./b.txt"] ++ "./c.txt" :: ["./d.txt"]).
    by rewrite Hraise.
Qed.

(** C1, amended.  Provided every enumerated file can be opened and read,
    two distinct enumerated files with byte-for-byte identical contents end
    up together in the final mapping, in the group at exactly one position
    of it, whatever positive prefix lengths the first two passes use;
    [dupfinder] is these three passes at [SCANSIZE] and [100 * SCANSIZE] on
    the files that [filewalker] enumerates. *)
Theorem identical_files_grouped hashfunc open scan1 scan2 files p1 p2 content :
  0 < scan1 → 0 < scan2 →
  Forall (readable open) files →
  p1 ∈ files → p2 ∈ files → p1 ≠ p2 →
  open p1 = Some content → open p2 = Some content →
  (∃ final,
     passes hashfunc open scan1 scan2 files = Ok final
     ∧ NoDup (ODict.keys final)
     ∧ ∃ i, (∃ hash members,
               final !! i = Some (hash, members) ∧ p1 ∈ members ∧ p2 ∈ members)
          ∧ ∀ j hash members,
              final !! j = Some (hash, members) → p1 ∈ members ∨ p2 ∈ members → j = i)
  ∧ (∀ isfile tree path exclude,
       dupfinder isfile open hashfunc tree path exclude
       = passes hashfunc open SCANSIZE (100 * SCANSIZE) (filewalker isfile tree path exclude)).
Proof.
  intros _ _ Hall H1 H2 Hne Ho1 Ho2. split; [|done].
  destruct (pass_keeps_twins hashfunc open files scan1 p1 p2 content)
    as (d1 & Hd1 & Hall1 & H11 & H12 & _); [done..|].
  destruct (pass_keeps_twins hashfunc open (flatten d1) scan2 p1 p2 content)
    as (d2 & Hd2 & Hall2 & H21 & H22 & _); [done..|].
  destruct (pass_keeps_twins hashfunc open (flatten d2) 0 p1 p2 content)
    as (d3 & Hd3 & _ & _ & _ & h & g & Hin & Hg1 & Hg2); [done..|].
  exists d3. unfold passes. rewrite Hd1, Hd2. split; [done|].
  pose proof (pass_keys_NoDup _ _ _ _ _ Hd3) as Hkeys. split; [done|].
  apply list_elem_of_lookup in Hin as [i Hi]. exists i. split; [by exists h, g|].
  intros j h' g' Hj Hmem.
  assert (h' = h) as ->.
  { apply list_elem_of_lookup_2 in Hi, Hj.
    rewrite <- (pass_member_digest _ _ _ _ _ _ _ p1 Hd3 Hi Hg1).
    destruct Hmem as [Hm|Hm].
    - symmetry. by eapply pass_member_digest.
    - rewrite <- (pass_member_digest _ _ _ _ _ _ _ p2 Hd3 Hj Hm).
      unfold item_of. simpl. by rewrite Ho1, Ho2. }
  apply (NoDup_lookup (ODict.keys d3) j i h); [done | |];
    unfold ODict.keys; rewrite list_lookup_fmap;
    [exact (f_equal (fmap fst) Hj) | exact (f_equal (fmap fst) Hi)].
Qed.

Lemma identical_files_grouped_witness :
  passes plain scenario_open 1 2 ["./a.txt"; "./b.txt"; "./c.txt"; "./d.txt"]
  = Ok [(plain (replicate 5000 x58), ["./a.txt"; "./b.txt"])]
  ∧ ∃ final,
      passes plain scenario_open 1 2 ["./a.txt"; "./b.txt"; "./c.txt"; "./d.txt"] = Ok final
      ∧ NoDup (ODict.keys final)
      ∧ ∃ i, (∃ hash members,
                final !! i = Some (hash, members)
                ∧ "./a.txt" ∈ members ∧ "./b.txt" ∈ members)
           ∧ ∀ j hash members,
               final !! j = Some (hash, members) →
               "./a.txt" ∈ members ∨ "./b.txt" ∈ members → j = i.
Proof.
  split; [vm_compute; reflexivity|].
  refine (proj1 (identical_files_grouped plain scenario_open 1 2
                   ["./a.txt"; "./b.txt"; "./c.txt"; "./d.txt"]
                   "./a.txt" "./b.txt" (replicate 5000 x58) _ _ _ _ _ _ _ _)).
  - lia.
  - lia.
  - apply (bool_decide_unpack _). vm_compute. exact I.
  - apply (bool_decide_unpack _). vm_compute. exact I.
  - apply (bool_decide_unpack _). vm_compute. exact I.
  - apply (bool_decide_unpack _). vm_compute. exact I.
  - vm_compute. reflexivity.
  - vm_compute. reflexivity.
Defined.

Lemma plain_inj d1 d2 : plain d1 = plain d2 → d1 = d2.
Proof.
  unfold plain. intros H.
  rewrite <- (list_byte_of_string_of_list_byte d1), <- (list_byte_of_string_of_list_byte d2).
  by rewrite H.
Qed.

(** C2, the claim as stated fails: [a.txt] and [c.txt] are enumerated, agree
    on their first [SCANSIZE] bytes and differ after them, and the hash
    function does not collide; but [d.txt], enumerated with them, cannot be
    read, so the first pass raises and returns no mapping: the two paths are
    in no group of the first pass, and [dupfinder] raises too. *)
Lemma prefix_twins_lost_to_read_failure :
  filewalker scenario_isfile scenario_tree "." None
  = ["./a.txt"; "./b.txt"; "./c.txt"; "./d.txt"]
  ∧ sealed_open "./a.txt" = Some (replicate 5000 x58)
  ∧ sealed_open "./c.txt" = Some (replicate 4096 x58 ++ [x59])
  ∧ sealed_open "./d.txt" = None
  ∧ take (Z.to_nat SCANSIZE) (replicate 5000 x58)
    = take (Z.to_nat SCANSIZE) (replicate 4096 x58 ++ [x59])
  ∧ replicate 5000 x58 ≠ replicate 4096 x58 ++ [x59]
  ∧ (∀ d1 d2, plain d1 = plain d2 → d1 = d2)
  ∧ duplicates plain sealed_open
      (filewalker scenario_isfile scenario_tree "." None) SCANSIZE
    = Raise (OSError "./d.txt")
  ∧ dupfinder scenario_isfile sealed_open plain scenario_tree "." None
    = Raise (OSError "./d.txt").
Proof.
  assert (duplicates plain sealed_open
            (["./a.txt"; "./b.txt"; "./c.txt"] ++ "./d.txt" :: []) SCANSIZE
          = Raise (OSError "./d.txt")) as Hraise.
  { apply duplicates_unreadable; [|reflexivity].
    apply (bool_decide_unpack _). vm_compute. exact I. }
  split_and!; [reflexivity | reflexivity | reflexivity | reflexivity | | | | |].
  - vm_compute. reflexivity.
  - intros H. apply (f_equal length) in H. vm_compute in H. discriminate H.
  - apply plain_inj.
  - exact Hraise.
  - unfold dupfinder.
    change (filewalker scenario_isfile scenario_tree "." None)
      with (["./a.txt"; "./b.txt"; "./c.txt"] ++ "./d.txt" :: []).
    by rewrite Hraise.
Qed.

(** C2, amended.  Provided every enumerated file can be opened and read, and
    the hash function does not collide on the two contents, two enumerated
    files whose first [SCANSIZE] bytes agree and whose contents differ are
    members of one group after the first pass, and of no common group in
    the mapping [dupfinder] returns. *)
Theorem prefix_twins_separated isfile open sha256 tree path exclude p1 p2 c1 c2 :
  let files := filewalker isfile tree path exclude in
  Forall (readable open) files →
  p1 ∈ files → p2 ∈ files →
  open p1 = Some c1 → open p2 = Some c2 →
  take (Z.to_nat SCANSIZE) c1 = take (Z.to_nat SCANSIZE) c2 →
  c1 ≠ c2 →
  (sha256 c1 = sha256 c2 → c1 = c2) →
  ∃ dups1 final,
    duplicates sha256 open files SCANSIZE = Ok dups1
    ∧ together dups1 p1 p2
    ∧ dupfinder isfile open sha256 tree path exclude = Ok final
    ∧ ¬ together final p1 p2.
Proof.
  intros files Hall H1 H2 Ho1 Ho2 Hprefix Hne Hinj.
  assert (p1 ≠ p2) as Hp by congruence.
  pose proof (duplicates_readable sha256 open files SCANSIZE Hall) as Hd1.
  set (d1 := (group_loop (item_of sha256 open SCANSIZE <$> files)).2) in Hd1.
  pose proof (pass_flatten_readable _ _ _ _ _ Hd1) as Hall1.
  pose proof (duplicates_readable sha256 open _ (100 * SCANSIZE) Hall1) as Hd2.
  set (d2 := (group_loop (item_of sha256 open (100 * SCANSIZE) <$> flatten d1)).2) in Hd2.
  pose proof (pass_flatten_readable _ _ _ _ _ Hd2) as Hall2.
  pose proof (duplicates_readable sha256 open _ 0 Hall2) as Hd3.
  set (d3 := (group_loop (item_of sha256 open 0 <$> flatten d2)).2) in Hd3.
  exists d1, d3. split_and!.
  - done.
  - assert ((item_of sha256 open SCANSIZE p1).1 = (item_of sha256 open SCANSIZE p2).1) as Heq.
    { unfold item_of. simpl. rewrite Ho1, Ho2. simpl.
      rewrite !digest_prefix by done. by rewrite Hprefix. }
    destruct (pass_together _ _ _ _ _ _ _ Hd1 H1 H2 Hp Heq) as (Hin & Hg1 & Hg2).
    unfold together. eauto.
  - unfold dupfinder. fold files. by rewrite Hd1, Hd2.
  - intros (h & g & Hin & Hg1 & Hg2). apply Hne, Hinj.
    pose proof (pass_member_digest _ _ _ _ _ _ _ _ Hd3 Hin Hg1) as E1.
    pose proof (pass_member_digest _ _ _ _ _ _ _ _ Hd3 Hin Hg2) as E2.
    unfold item_of in E1, E2. simpl in E1, E2. rewrite Ho1 in E1. rewrite Ho2 in E2.
    simpl in E1, E2. rewrite digest_full in E1, E2. congruence.
Qed.

Lemma prefix_twins_separated_witness :
  take (Z.to_nat SCANSIZE) (replicate 5000 x58)
  = take (Z.to_nat SCANSIZE) (replicate 4096 x58 ++ [x59])
  ∧ ∃ dups1 final,
      duplicates plain scenario_open
        (filewalker scenario_isfile scenario_tree "." None) SCANSIZE = Ok dups1
      ∧ together dups1 "./a.txt" "./c.txt"
      ∧ dupfinder scenario_isfile scenario_open plain scenario_tree "." None = Ok final
      ∧ ¬ together final "./a.txt" "./c.txt".
Proof.
  assert (take (Z.to_nat SCANSIZE) (replicate 5000 x58)
          = take (Z.to_nat SCANSIZE) (replicate 4096 x58 ++ [x59])) as Hprefix.
  { vm_compute. reflexivity. }
  split; [exact Hprefix|].
  refine (prefix_twins_separated scenario_isfile scenario_open plain scenario_tree "." None
            "./a.txt" "./c.txt" (replicate 5000 x58) (replicate 4096 x58 ++ [x59])
            _ _ _ _ _ Hprefix _ _).
  - apply (bool_decide_unpack _). vm_compute. exact I.
  - apply (bool_decide_unpack _). vm_compute. exact I.
  - apply (bool_decide_unpack _). vm_compute. exact I.
  - vm_compute. reflexivity.
  - vm_compute. reflexivity.
  - intros H. apply (f_equal length) in H. vm_compute in H. discriminate H.
  - apply plain_inj.
Defined.

(** C4.  [dupfinder] is three passes in a fixed order, at scan sizes
    [SCANSIZE = 4096], [100 * SCANSIZE] and [0]: the first runs on the
    enumerated files, each later one on the groups of the mapping before it,
    concatenated in the order of the mapping, and the mapping of the third
    pass is what [dupfinder] returns.  When the enumerated files are
    readable all three passes complete. *)
Theorem three_ordered_passes isfile open sha256 tree path exclude :
  let files := filewalker isfile tree path exclude in
  (SCANSIZE = 4096 ∧ 100 * SCANSIZE = 409600)
  ∧ (∀ dups : ODict.t (list string), flatten dups = concat dups.*2)
  ∧ (∀ final,
       dupfinder isfile open sha256 tree path exclude = Ok final ↔
       ∃ dups1 dups2,
         duplicates sha256 open files SCANSIZE = Ok dups1
         ∧ duplicates sha256 open (flatten dups1) (100 * SCANSIZE) = Ok dups2
         ∧ duplicates sha256 open (flatten dups2) 0 = Ok final)
  ∧ (Forall (readable open) files →
     ∃ dups1 dups2 final,
       duplicates sha256 open files SCANSIZE = Ok dups1
       ∧ duplicates sha256 open (flatten dups1) (100 * SCANSIZE) = Ok dups2
       ∧ duplicates sha256 open (flatten dups2) 0 = Ok final
       ∧ dupfinder isfile open sha256 tree path exclude = Ok final).
Proof.
  intros files. split_and!; [done | done | done | |].
  - intros final. unfold dupfinder. fold files. split.
    + destruct (duplicates sha256 open files SCANSIZE) as [d1|] eqn:Hd1; [|done].
      destruct (duplicates sha256 open (flatten d1) (100 * SCANSIZE)) as [d2|] eqn:Hd2; [|done].
      intros Hd3. by exists d1, d2.
    + by intros (d1 & d2 & -> & -> & ->).
  - intros Hall.
    pose proof (duplicates_readable sha256 open files SCANSIZE Hall) as Hd1.
    pose proof (pass_flatten_readable _ _ _ _ _ Hd1) as Hall1.
    pose proof (duplicates_readable sha256 open _ (100 * SCANSIZE) Hall1) as Hd2.
    pose proof (pass_flatten_readable _ _ _ _ _ Hd2) as Hall2.
    pose proof (duplicates_readable sha256 open _ 0 Hall2) as Hd3.
    eexists _, _, _. split_and!; [exact Hd1 | exact Hd2 | exact Hd3 |].
    unfold dupfinder. fold files. by rewrite Hd1, Hd2.
Qed.

Lemma three_ordered_passes_witness :
  Forall (readable scenario_open) (filewalker scenario_isfile scenario_tree "." None)
  ∧ duplicates plain scenario_open (filewalker scenario_isfile scenario_tree "." None) SCANSIZE
    = Ok [(plain (replicate 4096 x58), ["./a.txt"; "./b.txt"; "./c.txt"])]
  ∧ ∃ dups1 dups2 final,
      duplicates plain scenario_open
        (filewalker scenario_isfile scenario_tree "." None) SCANSIZE = Ok dups1
      ∧ duplicates plain scenario_open (flatten dups1) (100 * SCANSIZE) = Ok dups2
      ∧ duplicates plain scenario_open (flatten dups2) 0 = Ok final
      ∧ dupfinder scenario_isfile scenario_open plain scenario_tree "." None = Ok final.
Proof.
  assert (Forall (readable scenario_open)
            (filewalker scenario_isfile scenario_tree "." None)) as Hall.
  { apply (bool_decide_unpack _). vm_compute. exact I. }
  split_and!.
  - exact Hall.
  - vm_compute. reflexivity.
  - exact (proj2 (proj2 (proj2
      (three_ordered_passes scenario_isfile scenario_open plain scenario_tree "." None))) Hall).
Defined.

(** C3, the claim as stated fails: with [c.txt] unreadable the hasher stops
    at it after yielding the pairs of [a.txt] and [b.txt], [d.txt] is never
    hashed, the pass raises instead of returning the group that the readable
    files form, and [dupfinder] raises too. *)
Lemma read_failure_aborts_run :
  hasher plain locked_open ["./a.txt"; "./b.txt"; "./c.txt"; "./d.txt"] SCANSIZE
  = ([(plain (replicate 4096 x58), "./a.txt"); (plain (replicate 4096 x58), "./b.txt")],
     Some (OSError "./c.txt"))
  ∧ duplicates plain locked_open ["./a.txt"; "./b.txt"; "./c.txt"; "./d.txt"] SCANSIZE
    = Raise (OSError "./c.txt")
  ∧ duplicates plain locked_open
      (filter (readable locked_open) ["./a.txt"; "./b.txt"; "./c.txt"; "./d.txt"]) SCANSIZE
    = Ok [(plain (replicate 4096 x58), ["./a.txt"; "./b.txt"])]
  ∧ filewalker scenario_isfile scenario_tree "." None
    = ["./a.txt"; "./b.txt"; "./c.txt"; "./d.txt"]
  ∧ dupfinder scenario_isfile locked_open plain scenario_tree "." None
    = Raise (OSError "./c.txt").
Proof. split_and!; vm_compute; reflexivity. Qed.

(** C3, amended.  A failure to open or read a file is not caught.  A pass
    returns a mapping exactly when every file of its input is readable;
    otherwise the hasher stops at the first unreadable file, having yielded
    the pairs of the files before it only, and the pass raises that file's
    error.  An error raised by any of the three passes is raised by
    [dupfinder], which then returns no mapping. *)
Theorem read_failure_propagates hashfunc open files scansize :
  ((∃ dups, duplicates hashfunc open files scansize = Ok dups)
   ↔ Forall (readable open) files)
  ∧ (∀ pre filename post,
       files = pre ++ filename :: post →
       Forall (readable open) pre → open filename = None →
       hasher hashfunc open files scansize
       = (item_of hashfunc open scansize <$> pre, Some (OSError filename))
       ∧ duplicates hashfunc open files scansize = Raise (OSError filename))
  ∧ (∀ isfile tree path exclude e,
       dupfinder isfile open hashfunc tree path exclude = Raise e ↔
       duplicates hashfunc open (filewalker isfile tree path exclude) SCANSIZE = Raise e
       ∨ (∃ dups1,
            duplicates hashfunc open (filewalker isfile tree path exclude) SCANSIZE = Ok dups1
            ∧ duplicates hashfunc open (flatten dups1) (100 * SCANSIZE) = Raise e)
       ∨ (∃ dups1 dups2,
            duplicates hashfunc open (filewalker isfile tree path exclude) SCANSIZE = Ok dups1
            ∧ duplicates hashfunc open (flatten dups1) (100 * SCANSIZE) = Ok dups2
            ∧ duplicates hashfunc open (flatten dups2) 0 = Raise e)).
Proof.
  split_and!.
  - split.
    + intros [dups Hd]. by eapply duplicates_Ok_readable.
    + intros Hall. eexists. by apply duplicates_readable.
  - intros pre f post -> Hpre Hf. split.
    + by apply hasher_unreadable.
    + by apply duplicates_unreadable.
  - intros isfile tree path exclude e. unfold dupfinder.
    destruct (duplicates hashfunc open (filewalker isfile tree path exclude) SCANSIZE)
      as [d1|e1] eqn:Hd1.
    + destruct (duplicates hashfunc open (flatten d1) (100 * SCANSIZE)) as [d2|e2] eqn:Hd2.
      * split.
        -- intros Hd3. right; right. by exists d1, d2.
        -- intros [?|[(d1' & Heq & H)|(d1' & d2' & Heq1 & Heq2 & H)]]; [done | |].
           ++ injection Heq as <-. congruence.
           ++ injection Heq1 as <-. rewrite Hd2 in Heq2. by injection Heq2 as <-.
      * split.
        -- intros He. right; left. exists d1. split; [done | congruence].
        -- intros [?|[(d1' & Heq & H)|(d1' & d2' & Heq1 & Heq2 & H)]]; [done | |].
           ++ injection Heq as <-. congruence.
           ++ injection Heq1 as <-. congruence.
    + split.
      * intros He. by left.
      * intros [?|[(d1' & Heq & H)|(d1' & d2' & Heq1 & Heq2 & H)]]; done.
Qed.

Lemma read_failure_propagates_witness :
  Forall (readable locked_open) ["./a.txt"; "./b.txt"]
  ∧ locked_open "./c.txt" = None
  ∧ duplicates plain locked_open (["./a.txt"; "./b.txt"] ++ "./c.txt" :: ["./d.txt"]) SCANSIZE
    = Raise (OSError "./c.txt").
Proof.
  assert (Forall (readable locked_open) ["./a.txt"; "./b.txt"]) as Hpre.
  { apply (bool_decide_unpack _). vm_compute. exact I. }
  assert (locked_open "./c.txt" = None) as Hc by reflexivity.
  split_and!; [exact Hpre | exact Hc |].
  exact (proj2 (proj1 (proj2
    (read_failure_propagates plain locked_open
       (["./a.txt"; "./b.txt"] ++ "./c.txt" :: ["./d.txt"]) SCANSIZE))
    ["./a.txt"; "./b.txt"] "./c.txt" ["./d.txt"] eq_refl Hpre Hc)).
Defined.

(** ** The directory walk *)

Section WalkFacts.

Lemma dirtree_induction (P : dirtree → Prop) :
  (∀ subdirs nondirs, Forall (λ sub, P sub.2) subdirs → P (Dir subdirs nondirs)) →
  ∀ tree, P tree.
Proof.
  intros Hdir. fix IH 1. intros [subdirs nondirs]. apply Hdir.
  induction subdirs as [|[name sub] subdirs IHs]; constructor; [apply IH | apply IHs].
Qed.

Lemma startswith_app s t pre : startswith s pre = true → startswith (s +:+ t) pre = true.
Proof.
  revert s. induction pre as [|c pre IH]; intros [|c' s]; simpl; try done.
  intros [? ?]%andb_prop. apply andb_true_intro. auto.
Qed.

Lemma contains_app s t e : contains s e = true → contains (s +:+ t) e = true.
Proof.
  induction s as [|c s IH].
  - simpl. rewrite orb_false_r. destruct e; [|done]. intros _. by destruct t.
  - change (String c s +:+ t) with (String c (s +:+ t)).
    simpl contains at 1 2. intros [H|H]%orb_prop; apply orb_true_iff.
    + left. by apply (startswith_app (String c s)).
    + right. auto.
Qed.

Lemma path_join_extends a b : startswith b "/" = false → ∃ t, path_join a b = a +:+ t.
Proof.
  intros Hb. unfold path_join. rewrite Hb.
  destruct (decide (a = "")); [by exists b|].
  destruct (endswith_sep a); [by exists b|].
  exists ("/" +:+ b). done.
Qed.

Lemma contains_path_join a b e :
  startswith b "/" = false → contains a e = true → contains (path_join a b) e = true.
Proof. intros [t ->]%(path_join_extends a) H. by apply contains_app. Qed.

Lemma excluded_Some es dirpath :
  excluded (Some es) dirpath = true ↔ ∃ e, e ∈ es ∧ contains dirpath e = true.
Proof.
  assert (existsb (λ e, contains dirpath e) es = true ↔
          ∃ e, e ∈ es ∧ contains dirpath e = true) as H.
  { rewrite existsb_exists. by setoid_rewrite list_elem_of_In. }
  destruct es as [|e es]; [|exact H]. simpl. split; [done|].
  by intros (e & ?%elem_of_nil & _).
Qed.

Lemma excluded_path_join es a b :
  startswith b "/" = false →
  excluded (Some es) a = true → excluded (Some es) (path_join a b) = true.
Proof.
  rewrite !excluded_Some. intros Hb (e & He & Hc). exists e. split; [done|].
  by apply contains_path_join.
Qed.

Lemma elem_of_flat_map {A B} (f : A → list B) (l : list A) y :
  y ∈ flat_map f l ↔ ∃ x, x ∈ l ∧ y ∈ f x.
Proof.
  rewrite list_elem_of_In, in_flat_map. setoid_rewrite list_elem_of_In. done.
Qed.

Lemma os_walk_unfold top subdirs nondirs :
  os_walk top (Dir subdirs nondirs)
  = (top, subdirs.*1, nondirs)
    :: flat_map (λ sub, os_walk (path_join top sub.1) sub.2) subdirs.
Proof. done. Qed.

(** Below an excluded directory every directory is excluded. *)
Lemma os_walk_excluded es tree : ∀ top,
  plain_names tree = true → excluded (Some es) top = true →
  ∀ entry, entry ∈ os_walk top tree → excluded (Some es) entry.1.1 = true.
Proof.
  induction tree as [subdirs nondirs IH] using dirtree_induction.
  intros top Hnames Hex entry. rewrite os_walk_unfold, elem_of_cons.
  intros [->|Hin]; [done|].
  apply elem_of_flat_map in Hin as ([name sub] & Hsub & Hin). simpl in Hin.
  rewrite Forall_forall in IH. simpl in Hnames. rewrite forallb_forall in Hnames.
  specialize (Hnames _ (proj1 (list_elem_of_In _ _) Hsub)). simpl in Hnames.
  apply andb_prop in Hnames as [Hname Hsubnames].
  apply negb_true_iff in Hname.
  apply (IH _ Hsub (path_join top name)); [done | | done].
  by apply excluded_path_join.
Qed.

Lemma visits_walk top tree dirpath sub :
  visits top tree dirpath sub → ∀ entry, entry ∈ os_walk dirpath sub → entry ∈ os_walk top tree.
Proof.
  induction 1 as [|top subdirs nondirs name sub dirpath tree' Hin _ IH]; [done|].
  intros entry Hentry. rewrite os_walk_unfold. apply elem_of_cons; right.
  apply elem_of_flat_map. exists (name, sub). split; [done|]. by apply IH.
Qed.

Lemma visits_plain_names top tree dirpath sub :
  visits top tree dirpath sub → plain_names tree = true → plain_names sub = true.
Proof.
  induction 1 as [|top subdirs nondirs name sub dirpath tree' Hin _ IH]; [done|].
  simpl. rewrite forallb_forall. intros Hnames. apply IH.
  specialize (Hnames _ (proj1 (list_elem_of_In _ _) Hin)). simpl in Hnames.
  by apply andb_prop in Hnames as [_ ?].
Qed.

Lemma elem_of_walk_dir isfile exclude entry fpath :
  fpath ∈ walk_dir isfile exclude entry ↔
  excluded exclude entry.1.1 = false
  ∧ ∃ f, f ∈ entry.2 ∧ fpath = path_join entry.1.1 f ∧ isfile fpath = true.
Proof.
  destruct entry as [[dirpath dirnames] filenames]. simpl.
  destruct (excluded exclude dirpath).
  - split; [by intros ?%elem_of_nil | by intros [? _]].
  - rewrite list_elem_of_In, filter_In, <- list_elem_of_In, list_elem_of_fmap. split.
    + intros [(f & -> & Hf) Hfile]. split; [done|]. by exists f.
    + intros [_ (f & Hf & -> & Hfile)]. split; [by exists f | done].
Qed.

End WalkFacts.

Lemma flat_map_nil {A B} (f : A → list B) (l : list A) :
  (∀ x, x ∈ l → f x = []) → flat_map f l = [].
Proof.
  induction l as [|x l IH]; [done|]. intros H. simpl.
  rewrite (H x) by (apply elem_of_cons; by left). simpl.
  apply IH. intros y Hy. apply H, elem_of_cons. by right.
Qed.

(** C7.  When [os.walk] reaches a directory whose path contains one of the
    exclusion strings, every triple it reports for that directory and for
    the directories below it is skipped, so no file at or below it is
    yielded; and every path [filewalker] does yield is a regular file of a
    reported directory whose path contains none of the exclusion strings. *)
Theorem excluded_directories_yield_nothing isfile tree path exclude e dirpath sub :
  plain_names tree = true →
  visits path tree dirpath sub →
  e ∈ exclude → contains dirpath e = true →
  (∀ entry, entry ∈ os_walk dirpath sub →
     entry ∈ os_walk path tree ∧ walk_dir isfile (Some exclude) entry = [])
  ∧ filewalker isfile sub dirpath (Some exclude) = []
  ∧ (∀ fpath, fpath ∈ filewalker isfile tree path (Some exclude) →
       ∃ d dirnames filenames f,
         (d, dirnames, filenames) ∈ os_walk path tree
         ∧ f ∈ filenames ∧ fpath = path_join d f ∧ isfile fpath = true
         ∧ ∀ e', e' ∈ exclude → contains d e' = false).
Proof.
  intros Hnames Hvisit He Hc.
  assert (excluded (Some exclude) dirpath = true) as Hex.
  { apply excluded_Some. by exists e. }
  pose proof (visits_plain_names _ _ _ _ Hvisit Hnames) as Hsubnames.
  assert (∀ entry, entry ∈ os_walk dirpath sub →
            walk_dir isfile (Some exclude) entry = []) as Hskip.
  { intros [[d dirnames] filenames] Hentry.
    pose proof (os_walk_excluded exclude sub dirpath Hsubnames Hex _ Hentry) as Hd.
    simpl in *. by rewrite Hd. }
  split_and!.
  - intros entry Hentry. split; [by eapply visits_walk | by apply Hskip].
  - unfold filewalker. by apply flat_map_nil.
  - intros fpath ([[d dirnames] filenames] & Hentry & Hin)%elem_of_flat_map.
    apply elem_of_walk_dir in Hin as [Hnot (f & Hf & -> & Hfile)]. cbn [fst snd] in *.
    exists d, dirnames, filenames, f. split_and!; [done..|].
    intros e' He'. destruct (contains d e') eqn:Hc'; [|done].
    assert (excluded (Some exclude) d = true) as Hyes; [|congruence].
    apply excluded_Some. by exists e'.
Qed.

Lemma excluded_directories_yield_nothing_witness :
  visits "." (Dir [("cache", Dir [("old", Dir [] ["x.bin"])] ["y.bin"])] ["a.txt"])
    "./cache/old" (Dir [] ["x.bin"])
  ∧ contains "./cache/old" "cache" = true
  ∧ filewalker scenario_isfile (Dir [] ["x.bin"]) "./cache/old" (Some ["tmp"; "cache"]) = []
  ∧ filewalker scenario_isfile
      (Dir [("cache", Dir [("old", Dir [] ["x.bin"])] ["y.bin"])] ["a.txt"])
      "." (Some ["tmp"; "cache"]) = ["./a.txt"].
Proof.
  assert (visits "." (Dir [("cache", Dir [("old", Dir [] ["x.bin"])] ["y.bin"])] ["a.txt"])
            "./cache/old" (Dir [] ["x.bin"])) as Hvisit.
  { eapply visits_sub; [apply elem_of_cons; by left|].
    eapply visits_sub; [apply elem_of_cons; by left|].
    apply visits_top. }
  assert (contains "./cache/old" "cache" = true) as Hc by reflexivity.
  split_and!; [exact Hvisit | exact Hc | | reflexivity].
  refine (proj1 (proj2 (excluded_directories_yield_nothing scenario_isfile _ "."
                          ["tmp"; "cache"] "cache" _ _ _ Hvisit _ Hc))).
  - reflexivity.
  - apply (bool_decide_unpack _). vm_compute. exact I.
Defined.



(** * Further properties of the code *)

(** ** Survivors of a pass *)

Section SurvivorFacts.

Lemma filter_ext_in {A} (P Q : A → Prop) `{∀ x, Decision (P x)} `{∀ x, Decision (Q x)}
    (l : list A) :
  (∀ x, x ∈ l → P x ↔ Q x) → filter P l = filter Q l.
Proof.
  induction l as [|x l IH]; [done|]. intros Hext.
  assert (filter P l = filter Q l) as Hl.
  { apply IH. intros y Hy. apply Hext, elem_of_cons. by right. }
  pose proof (Hext x (proj2 (elem_of_cons _ _ _) (or_introl eq_refl))) as Hx.
  rewrite !filter_cons, Hl. destruct (decide (P x)), (decide (Q x)); tauto.
Qed.

Lemma filter_none {A} (P : A → Prop) `{∀ x, Decision (P x)} (l : list A) :
  (∀ x, x ∈ l → ¬ P x) → filter P l = [].
Proof.
  induction l as [|x l IH]; [done|]. intros Hno.
  rewrite filter_cons, decide_False by (apply Hno, elem_of_cons; by left).
  apply IH. intros y Hy. apply Hno, elem_of_cons. by right.
Qed.

Lemma filter_disjoint_app {A} (P Q : A → Prop)
    `{∀ x, Decision (P x)} `{∀ x, Decision (Q x)} (l : list A) :
  (∀ x, P x → Q x → False) →
  filter P l ++ filter Q l ≡ₚ filter (λ x, P x ∨ Q x) l.
Proof.
  intros Hdisj. induction l as [|x l IH]; [done|].
  rewrite !filter_cons.
  destruct (decide (P x)) as [HP|HP], (decide (Q x)) as [HQ|HQ].
  - by destruct (Hdisj x).
  - rewrite decide_True by auto. simpl. by rewrite IH.
  - rewrite decide_True by auto. by rewrite <- Permutation_middle, IH.
  - rewrite decide_False by tauto. done.
Qed.

(** The groups of the digests [ks], one after the other, hold the files
    whose digest is among [ks]. *)
Lemma concat_groups_Permutation {A} (d : A → string) (l : list A) (ks : list string) :
  NoDup ks →
  concat ((λ k, filter (λ f, d f = k) l) <$> ks) ≡ₚ filter (λ f, d f ∈ ks) l.
Proof.
  induction 1 as [|k ks Hk Hks IH].
  - simpl. rewrite filter_none; [done|]. intros x _. apply not_elem_of_nil.
  - rewrite fmap_cons. simpl. rewrite IH.
    rewrite filter_disjoint_app by (intros x <- Hin; by apply Hk).
    erewrite list_filter_iff; [done|]. intros x. rewrite elem_of_cons. naive_solver.
Qed.

End SurvivorFacts.

Section SurvivorFacts2.
Import ODict ODictFacts.

Lemma grouped_key items st h :
  grouped items st → h ∈ keys st.2 ↔ (2 ≤ length (paths_of h items))%nat.
Proof.
  intros Hgr. destruct (get h st.2) as [g|] eqn:Hget.
  - pose proof Hget as Hget'. rewrite (grouped_get _ _ Hgr) in Hget'.
    case_decide; [|done]. split; [done|]. intros _.
    destruct (decide (h ∈ keys st.2)) as [|Hno]; [done|].
    apply get_None in Hno. congruence.
  - pose proof Hget as Hget'. rewrite (grouped_get _ _ Hgr) in Hget'.
    case_decide; [done|]. apply get_None in Hget. split; [done | lia].
Qed.

Lemma pass_flatten_Permutation hashfunc open files scansize dups :
  duplicates hashfunc open files scansize = Ok dups →
  flatten dups ≡ₚ
  filter (λ f, (2 ≤ length (filter (λ f', (item_of hashfunc open scansize f').1
                                          = (item_of hashfunc open scansize f).1) files))%nat)
    files.
Proof.
  intros Hd. pose proof (duplicates_Ok_readable _ _ _ _ _ Hd) as Hall.
  rewrite duplicates_readable in Hd by done. injection Hd as <-.
  set (items := item_of hashfunc open scansize <$> files).
  pose proof (group_loop_grouped items) as Hgr.
  unfold flatten. rewrite (grouped_values _ _ Hgr).
  erewrite (list_fmap_ext _ (λ k, filter (λ f, (item_of hashfunc open scansize f).1 = k) files));
    [|intros i k _; apply paths_of_item_of].
  rewrite concat_groups_Permutation by apply Hgr.
  erewrite list_filter_iff; [done|]. intros f. simpl.
  rewrite (grouped_key _ _ _ Hgr). unfold items. by rewrite paths_of_item_of.
Qed.

End SurvivorFacts2.

(** X1.  The paths a pass hands on are, up to their order, the files of its
    input whose digest is shared by at least two files of the input: nothing
    is added, nothing is repeated, and a file with a digest of its own is
    dropped. *)
Theorem pass_survivors hashfunc open files scansize dups :
  duplicates hashfunc open files scansize = Ok dups →
  flatten dups ≡ₚ
    filter (λ f, (2 ≤ length (filter (λ f', (item_of hashfunc open scansize f').1
                                            = (item_of hashfunc open scansize f).1) files))%nat)
      files
  ∧ flatten dups ⊆+ files
  ∧ (length (flatten dups) ≤ length files)%nat
  ∧ (NoDup files → NoDup (flatten dups)).
Proof.
  intros Hd. pose proof (pass_flatten_Permutation _ _ _ _ _ Hd) as Hperm.
  assert (flatten dups ⊆+ files) as Hsub.
  { rewrite Hperm. apply sublist_submseteq, sublist_filter. }
  split_and!; [done | done | by apply submseteq_length |].
  intros Hnd. rewrite Hperm. by apply NoDup_filter.
Qed.

Lemma pass_survivors_witness :
  duplicates plain scenario_open ["./a.txt"; "./d.txt"; "./b.txt"; "./c.txt"] SCANSIZE
  = Ok [(plain (replicate 4096 x58), ["./a.txt"; "./b.txt"; "./c.txt"])]
  ∧ flatten [(plain (replicate 4096 x58), ["./a.txt"; "./b.txt"; "./c.txt"])]
    ⊆+ ["./a.txt"; "./d.txt"; "./b.txt"; "./c.txt"].
Proof.
  assert (duplicates plain scenario_open ["./a.txt"; "./d.txt"; "./b.txt"; "./c.txt"] SCANSIZE
          = Ok [(plain (replicate 4096 x58), ["./a.txt"; "./b.txt"; "./c.txt"])]) as Hd.
  { vm_compute. reflexivity. }
  split; [exact Hd|].
  exact (proj1 (proj2 (pass_survivors _ _ _ _ _ Hd))).
Defined.

(** X2.  [candidates] records, for every digest that has arrived, the first
    path that arrived with it; an entry is never overwritten or removed, so
    it stays also after its digest has been promoted to a group. *)
Theorem candidates_hold_first_seen :
  (∀ items hash, (group_loop items).1 !! hash = head (paths_of hash items))
  ∧ (∀ st item hash first,
       st.1 !! hash = Some first → (group_step st item).1 !! hash = Some first)
  ∧ (∀ items hash members,
       (hash, members) ∈ (group_loop items).2 →
       (group_loop items).1 !! hash = head members).
Proof.
  split_and!.
  - intros items h. apply (grouped_candidates _ _ (group_loop_grouped items)).
  - intros [c d] [h p] h' first Hc. simpl in *.
    destruct (ODict.get h d); [done|].
    destruct (c !! h) eqn:Hh; [done|]. simpl.
    rewrite lookup_insert_ne; [done|]. congruence.
  - intros items h g [-> _]%(grouped_entry _ _ _ _ (group_loop_grouped items)).
    apply (grouped_candidates _ _ (group_loop_grouped items)).
Qed.

Lemma candidates_hold_first_seen_witness :
  ("h", ["a"; "b"]) ∈ (group_loop [("h", "a"); ("k", "c"); ("h", "b")]).2
  ∧ (group_loop [("h", "a"); ("k", "c"); ("h", "b")]).1 !! "h" = Some "a".
Proof.
  assert (("h", ["a"; "b"]) ∈ (group_loop [("h", "a"); ("k", "c"); ("h", "b")]).2) as Hin.
  { apply (bool_decide_unpack _). vm_compute. exact I. }
  split; [exact Hin|].
  exact (proj2 (proj2 candidates_hold_first_seen) _ _ _ Hin).
Defined.

(** ** A pass over its own survivors *)

Section BlockFacts.
Import ODict ODictFacts.

Lemma get_app_fresh {V} k (v : V) d : get k d = None → get k (d ++ [(k, v)]) = Some v.
Proof.
  induction d as [|[k' v'] d IH]; simpl.
  - by rewrite decide_True.
  - destruct (decide (k = k')); [done | auto].
Qed.

Lemma get_app_other {V} k k' (v : V) d : k ≠ k' → get k' (d ++ [(k, v)]) = get k' d.
Proof.
  intros Hne. induction d as [|[k0 v0] d IH]; simpl.
  - by rewrite decide_False.
  - destruct (decide (k' = k0)); [done | auto].
Qed.

Lemma set_app_fresh {V} k (v w : V) d :
  get k d = None → set k w (d ++ [(k, v)]) = d ++ [(k, w)].
Proof.
  induction d as [|[k' v'] d IH]; simpl.
  - by rewrite decide_True.
  - destruct (decide (k = k')); [done|]. intros H. by rewrite IH.
Qed.

(** More paths of the digest whose group is the last of the mapping. *)
Lemma group_loop_extend c d k g ps :
  get k d = None →
  foldl group_step (c, d ++ [(k, g)]) (pair k <$> ps) = (c, d ++ [(k, g ++ ps)]).
Proof.
  intros Hk. revert g. induction ps as [|p ps IH]; intros g.
  - by rewrite app_nil_r.
  - rewrite fmap_cons. simpl. rewrite get_app_fresh, set_app_fresh by done.
    rewrite IH. by rewrite <- app_assoc.
Qed.

(** A run of at least two paths of a digest that has not arrived yet. *)
Lemma group_loop_block c d k p1 p2 ps :
  get k d = None → c !! k = None →
  foldl group_step (c, d) (pair k <$> p1 :: p2 :: ps)
  = (<[k := p1]> c, d ++ [(k, p1 :: p2 :: ps)]).
Proof.
  intros Hd Hc. rewrite !fmap_cons. simpl. rewrite Hd, Hc. simpl.
  rewrite Hd, lookup_insert_eq, set_fresh by done.
  by rewrite group_loop_extend.
Qed.

(** The items of a mapping whose groups have two members or more and whose
    keys are distinct rebuild the mapping, group after group. *)
Lemma group_loop_blocks (blocks : ODict.t (list string)) : ∀ c d,
  NoDup (keys blocks) →
  (∀ k g, (k, g) ∈ blocks → (2 ≤ length g)%nat) →
  (∀ k, k ∈ keys blocks → get k d = None ∧ c !! k = None) →
  (foldl group_step (c, d) (flat_map (λ e, pair e.1 <$> e.2) blocks)).2 = d ++ blocks.
Proof.
  unfold keys. induction blocks as [|[k g] blocks IH]; intros c d Hnd Hlen Hfresh.
  - simpl. by rewrite app_nil_r.
  - rewrite fmap_cons in Hnd. apply NoDup_cons in Hnd as [Hk Hnd]. simpl in Hk.
    destruct (Hfresh k) as [Hd Hc]; [rewrite fmap_cons; apply elem_of_cons; by left|].
    destruct g as [|p1 [|p2 ps]];
      [specialize (Hlen k [] ltac:(apply elem_of_cons; by left)); simpl in Hlen; lia
      |specialize (Hlen k [p1] ltac:(apply elem_of_cons; by left)); simpl in Hlen; lia|].
    change (flat_map ?f (?x :: ?l)) with (f x ++ flat_map f l). cbn [fst snd].
    rewrite foldl_app, group_loop_block by done.
    rewrite IH.
    + by rewrite <- app_assoc.
    + done.
    + intros k' g' Hin. apply (Hlen k' g'), elem_of_cons. by right.
    + intros k' Hk'. destruct (Hfresh k') as [Hd' Hc'].
      { rewrite fmap_cons. apply elem_of_cons. by right. }
      assert (k ≠ k') as Hne by (intros ->; done).
      split; [by rewrite get_app_other | by rewrite lookup_insert_ne].
Qed.

End BlockFacts.

Section RepeatFacts.
Variable hashfunc : list byte → string.
Variable open : string → option (list byte).

Lemma items_of_flatten (f : string → string * string) (dups : ODict.t (list string)) :
  (∀ k g p, (k, g) ∈ dups → p ∈ g → f p = (k, p)) →
  f <$> flatten dups = flat_map (λ e, pair e.1 <$> e.2) dups.
Proof.
  unfold flatten, ODict.values.
  induction dups as [|[k g] dups IH]; intros Hf; [done|].
  rewrite fmap_cons. simpl. rewrite fmap_app. f_equal.
  - apply list_fmap_ext. intros i p Hp. apply (Hf k g); [apply elem_of_cons; by left|].
    by eapply list_elem_of_lookup_2.
  - apply IH. intros k' g' p Hin. apply Hf, elem_of_cons. by right.
Qed.

Lemma duplicates_again files scansize dups :
  duplicates hashfunc open files scansize = Ok dups →
  duplicates hashfunc open (flatten dups) scansize = Ok dups.
Proof.
  intros Hd. rewrite duplicates_readable by by eapply pass_flatten_readable.
  f_equal. unfold group_loop.
  rewrite (items_of_flatten (item_of hashfunc open scansize) dups).
  - rewrite group_loop_blocks; [done | | |done].
    + by eapply pass_keys_NoDup.
    + intros k g Hin. by apply (pass_entry _ _ _ _ _ _ _ Hd) in Hin as [_ ?].
  - intros k g p Hin Hp.
    rewrite <- (pass_member_digest _ _ _ _ _ _ _ _ Hd Hin Hp). done.
Qed.

Lemma duplicates_same_digests files scansize scansize' :
  Forall (readable open) files →
  (∀ f, f ∈ files → item_of hashfunc open scansize f = item_of hashfunc open scansize' f) →
  duplicates hashfunc open files scansize = duplicates hashfunc open files scansize'.
Proof.
  intros Hall Heq. rewrite !duplicates_readable by done. do 3 f_equal.
  apply list_fmap_ext. intros i f Hf. apply Heq. by eapply list_elem_of_lookup_2.
Qed.

End RepeatFacts.

(** X3.  A pass is idempotent: run again, at the same scan size, on the
    paths it has handed on, it returns the very mapping it returned before,
    with the groups in the same order and the same members in each.  So does
    a pass at any other scan size that gives those paths the same digests. *)
Theorem pass_idempotent hashfunc open files scansize dups :
  duplicates hashfunc open files scansize = Ok dups →
  duplicates hashfunc open (flatten dups) scansize = Ok dups
  ∧ ∀ scansize',
      (∀ f, f ∈ flatten dups →
         item_of hashfunc open scansize' f = item_of hashfunc open scansize f) →
      duplicates hashfunc open (flatten dups) scansize' = Ok dups.
Proof.
  intros Hd. pose proof (duplicates_again _ _ _ _ _ Hd) as Hagain.
  split; [done|]. intros scansize' Hsame.
  rewrite <- Hagain. apply duplicates_same_digests; [|done].
  by eapply pass_flatten_readable.
Qed.

Lemma pass_idempotent_witness :
  duplicates plain scenario_open ["./a.txt"; "./d.txt"; "./b.txt"; "./c.txt"] SCANSIZE
  = Ok [(plain (replicate 4096 x58), ["./a.txt"; "./b.txt"; "./c.txt"])]
  ∧ duplicates plain scenario_open ["./a.txt"; "./b.txt"; "./c.txt"] SCANSIZE
    = Ok [(plain (replicate 4096 x58), ["./a.txt"; "./b.txt"; "./c.txt"])].
Proof.
  assert (duplicates plain scenario_open ["./a.txt"; "./d.txt"; "./b.txt"; "./c.txt"] SCANSIZE
          = Ok [(plain (replicate 4096 x58), ["./a.txt"; "./b.txt"; "./c.txt"])]) as Hd.
  { vm_compute. reflexivity. }
  split; [exact Hd|].
  exact (proj1 (pass_idempotent _ _ _ _ _ Hd)).
Defined.

(** X4.  When no enumerated file is longer than [SCANSIZE], the three passes
    hash the same bytes, and [dupfinder] returns the mapping of its first
    pass unchanged. *)
Theorem short_files_settled_by_first_pass isfile open sha256 tree path exclude :
  let files := filewalker isfile tree path exclude in
  Forall (λ f, ∃ c, open f = Some c ∧ Z.of_nat (length c) ≤ SCANSIZE) files →
  ∃ dups,
    duplicates sha256 open files SCANSIZE = Ok dups
    ∧ duplicates sha256 open (flatten dups) (100 * SCANSIZE) = Ok dups
    ∧ duplicates sha256 open (flatten dups) 0 = Ok dups
    ∧ dupfinder isfile open sha256 tree path exclude = Ok dups.
Proof.
  intros files Hshort.
  assert (Forall (readable open) files) as Hall.
  { eapply Forall_impl; [exact Hshort|]. intros f (c & Hc & _). by exists c. }
  pose proof (duplicates_readable sha256 open files SCANSIZE Hall) as Hd1.
  set (d1 := (group_loop (item_of sha256 open SCANSIZE <$> files)).2) in Hd1.
  pose proof (pass_flatten_readable _ _ _ _ _ Hd1) as Hall1.
  assert (∀ f, f ∈ flatten d1 →
            item_of sha256 open (100 * SCANSIZE) f = item_of sha256 open SCANSIZE f
            ∧ item_of sha256 open 0 f = item_of sha256 open SCANSIZE f) as Hsame.
  { intros f Hf. apply (pass_flatten_subset _ _ _ _ _ _ Hd1) in Hf.
    rewrite Forall_forall in Hshort. destruct (Hshort f Hf) as (c & Hc & Hlen).
    unfold item_of. rewrite Hc. simpl.
    rewrite digest_full, !digest_prefix by done.
    unfold SCANSIZE in *. by rewrite !take_ge by lia. }
  assert (duplicates sha256 open (flatten d1) (100 * SCANSIZE) = Ok d1) as Hd2.
  { rewrite (duplicates_same_digests _ _ _ _ SCANSIZE Hall1); [exact (duplicates_again _ _ _ _ _ Hd1)|].
    intros f Hf. by apply Hsame. }
  assert (duplicates sha256 open (flatten d1) 0 = Ok d1) as Hd3.
  { rewrite (duplicates_same_digests _ _ _ _ SCANSIZE Hall1); [exact (duplicates_again _ _ _ _ _ Hd1)|].
    intros f Hf. by apply Hsame. }
  exists d1. split_and!; [done..|].
  unfold dupfinder. fold files. by rewrite Hd1, Hd2.
Qed.

Lemma short_files_settled_by_first_pass_witness :
  Forall (λ f, ∃ c, short_open f = Some c ∧ Z.of_nat (length c) ≤ SCANSIZE)
    (filewalker scenario_isfile (Dir [] ["d.txt"; "e.txt"]) "." None)
  ∧ dupfinder scenario_isfile short_open plain (Dir [] ["d.txt"; "e.txt"]) "." None
    = Ok [(plain [x5a], ["./d.txt"; "./e.txt"])]
  ∧ ∃ dups,
      duplicates plain short_open
        (filewalker scenario_isfile (Dir [] ["d.txt"; "e.txt"]) "." None) SCANSIZE = Ok dups
      ∧ duplicates plain short_open (flatten dups) (100 * SCANSIZE) = Ok dups
      ∧ duplicates plain short_open (flatten dups) 0 = Ok dups
      ∧ dupfinder scenario_isfile short_open plain (Dir [] ["d.txt"; "e.txt"]) "." None
        = Ok dups.
Proof.
  assert (Forall (λ f, ∃ c, short_open f = Some c ∧ Z.of_nat (length c) ≤ SCANSIZE)
            (filewalker scenario_isfile (Dir [] ["d.txt"; "e.txt"]) "." None)) as Hshort.
  { repeat constructor; exists [x5a]; (split; [reflexivity | vm_compute; discriminate]). }
  split_and!; [exact Hshort | vm_compute; reflexivity |].
  exact (short_files_settled_by_first_pass scenario_isfile short_open plain
           (Dir [] ["d.txt"; "e.txt"]) "." None Hshort).
Defined.

(** ** What the three passes keep *)

Section ExactFacts.
Import ODict ODictFacts.

Lemma filter_length_le {A} (P Q : A → Prop)
    `{∀ x, Decision (P x)} `{∀ x, Decision (Q x)} (l : list A) :
  (∀ x, x ∈ l → P x → Q x) → (length (filter P l) ≤ length (filter Q l))%nat.
Proof.
  induction l as [|x l IH]; [done|]. intros Himp.
  assert (length (filter P l) ≤ length (filter Q l))%nat as Hl.
  { apply IH. intros y Hy. apply Himp, elem_of_cons. by right. }
  pose proof (Himp x (proj2 (elem_of_cons _ _ _) (or_introl eq_refl))) as Hx.
  rewrite !filter_cons. destruct (decide (P x)), (decide (Q x)); simpl; [lia | tauto | lia | lia].
Qed.

(** Of the groups of the digests [ks], only that of [k] holds files that
    satisfy [P], when all such files have the digest [k]. *)
Lemma filter_concat_groups {A} (P : A → Prop) `{∀ x, Decision (P x)}
    (d : A → string) (l : list A) (k : string) (ks : list string) :
  (∀ f, f ∈ l → P f → d f = k) → NoDup ks →
  filter P (concat ((λ h, filter (λ f, d f = h) l) <$> ks))
  = if decide (k ∈ ks) then filter P l else [].
Proof.
  intros HP. induction 1 as [|h ks Hh Hks IH].
  - rewrite decide_False by apply not_elem_of_nil. done.
  - rewrite fmap_cons. change (concat (?x :: ?y)) with (x ++ concat y).
    rewrite filter_app, IH.
    destruct (decide (h = k)) as [->|Hne].
    + rewrite (decide_False (P := k ∈ ks)) by done.
      rewrite decide_True by (apply elem_of_cons; by left).
      rewrite app_nil_r, list_filter_filter.
      apply filter_ext_in. intros f Hf. split; [by intros [? _] | auto].
    + rewrite (filter_none P).
      * simpl. destruct (decide (k ∈ ks)) as [Hin|Hnin].
        -- rewrite decide_True; [done|]. apply elem_of_cons. by right.
        -- rewrite decide_False; [done|]. intros [?|?]%elem_of_cons; [by subst | done].
      * intros f [Hd Hf]%list_elem_of_filter HPf. apply Hne. rewrite <- Hd. by apply HP.
Qed.

Variable hashfunc : list byte → string.
Variable open : string → option (list byte).

(** The files that satisfy [P] pass through a pass together or not at all,
    when they all have one digest in it. *)
Lemma filter_pass (P : string → Prop) `{∀ x, Decision (P x)} files scansize dups :
  duplicates hashfunc open files scansize = Ok dups →
  (∀ f1 f2, f1 ∈ files → f2 ∈ files → P f1 → P f2 →
     (item_of hashfunc open scansize f1).1 = (item_of hashfunc open scansize f2).1) →
  filter P (flatten dups) = filter P files
  ∨ (filter P (flatten dups) = [] ∧ (length (filter P files) ≤ 1)%nat).
Proof.
  intros Hd Hone.
  destruct (filter P files) as [|f0 rest] eqn:HF.
  { left. apply filter_none. intros f Hf HPf.
    assert (f ∈ filter P files) as Hin.
    { apply list_elem_of_filter. split; [done|]. by eapply pass_flatten_subset. }
    rewrite HF in Hin. by apply elem_of_nil in Hin. }
  rewrite <- HF.
  assert (f0 ∈ filter P files) as [HP0 Hf0]%list_elem_of_filter.
  { rewrite HF. apply elem_of_cons. by left. }
  set (d := λ f, (item_of hashfunc open scansize f).1).
  set (k := d f0).
  assert (∀ f, f ∈ files → P f → d f = k) as Hk.
  { intros f Hf HPf. by apply Hone. }
  pose proof (duplicates_Ok_readable _ _ _ _ _ Hd) as Hall.
  pose proof Hd as Hd'. rewrite duplicates_readable in Hd' by done. injection Hd' as <-.
  set (items := item_of hashfunc open scansize <$> files).
  pose proof (group_loop_grouped items) as Hgr.
  unfold flatten. rewrite (grouped_values _ _ Hgr).
  erewrite (list_fmap_ext _ (λ h, filter (λ f, d f = h) files));
    [|intros i h _; apply paths_of_item_of].
  rewrite (filter_concat_groups P d files k) by (done || apply Hgr).
  destruct (decide (k ∈ keys (group_loop items).2)) as [Hin|Hnin]; [by left|].
  right. split; [done|].
  rewrite (grouped_key _ _ _ Hgr) in Hnin. unfold items in Hnin.
  rewrite paths_of_item_of in Hnin.
  assert (length (filter P files)
          ≤ length (filter (λ f, (item_of hashfunc open scansize f).1 = k) files))%nat
    as Hle by (apply filter_length_le; exact Hk).
  lia.
Qed.

End ExactFacts.

Section ReportFacts.
Variable hashfunc : list byte → string.
Variable open : string → option (list byte).

Lemma pass_flatten_submseteq files scansize dups :
  duplicates hashfunc open files scansize = Ok dups → flatten dups ⊆+ files.
Proof.
  intros Hd. rewrite (pass_flatten_Permutation _ _ _ _ _ Hd).
  apply sublist_submseteq, sublist_filter.
Qed.

Lemma passes_Ok scan1 scan2 files final :
  passes hashfunc open scan1 scan2 files = Ok final →
  ∃ dups1 dups2,
    duplicates hashfunc open files scan1 = Ok dups1
    ∧ duplicates hashfunc open (flatten dups1) scan2 = Ok dups2
    ∧ duplicates hashfunc open (flatten dups2) 0 = Ok final.
Proof.
  unfold passes.
  destruct (duplicates hashfunc open files scan1) as [d1|] eqn:Hd1; [|done].
  destruct (duplicates hashfunc open (flatten d1) scan2) as [d2|] eqn:Hd2; [|done].
  intros Hd3. by exists d1, d2.
Qed.

Lemma item_of_full f c : open f = Some c → (item_of hashfunc open 0 f).1 = hashfunc c.
Proof. intros Hc. unfold item_of. simpl. by rewrite Hc, digest_full. Qed.

End ReportFacts.

(** X5.  [dupfinder] reports only paths that were enumerated, and none more
    often than it was enumerated: the paths of the final mapping are a
    sub-multiset of the output of [filewalker].  Every group has at least
    two members, the digests are distinct, and when no path was enumerated
    twice no path is reported twice. *)
Theorem dupfinder_reports_enumerated isfile open sha256 tree path exclude final :
  dupfinder isfile open sha256 tree path exclude = Ok final →
  flatten final ⊆+ filewalker isfile tree path exclude
  ∧ (∀ hash members, (hash, members) ∈ final → (2 ≤ length members)%nat)
  ∧ NoDup (ODict.keys final)
  ∧ (NoDup (filewalker isfile tree path exclude) → NoDup (flatten final)).
Proof.
  rewrite dupfinder_passes. intros (d1 & d2 & Hd1 & Hd2 & Hd3)%passes_Ok.
  assert (flatten final ⊆+ filewalker isfile tree path exclude) as Hsub.
  { etrans; [by eapply pass_flatten_submseteq|].
    etrans; by eapply pass_flatten_submseteq. }
  split_and!.
  - done.
  - intros h g Hin. by apply (pass_entry _ _ _ _ _ _ _ Hd3) in Hin as [_ ?].
  - by eapply pass_keys_NoDup.
  - intros Hnd. apply submseteq_Permutation in Hsub as [rest Hperm].
    rewrite Hperm in Hnd. by apply NoDup_app in Hnd as [? _].
Qed.

Lemma dupfinder_reports_enumerated_witness :
  dupfinder scenario_isfile scenario_open plain scenario_tree "." None
  = Ok [(plain (replicate 5000 x58), ["./a.txt"; "./b.txt"])]
  ∧ flatten [(plain (replicate 5000 x58), ["./a.txt"; "./b.txt"])]
    ⊆+ filewalker scenario_isfile scenario_tree "." None.
Proof.
  assert (dupfinder scenario_isfile scenario_open plain scenario_tree "." None
          = Ok [(plain (replicate 5000 x58), ["./a.txt"; "./b.txt"])]) as Hd.
  { vm_compute. reflexivity. }
  split; [exact Hd|].
  exact (proj1 (dupfinder_reports_enumerated _ _ _ _ _ _ _ Hd)).
Defined.

(** X6.  Each group of the mapping [dupfinder] returns is stored under the
    digest of the full contents of every one of its members: the members of
    a group can all be read and their full contents have one digest. *)
Theorem final_groups_share_full_digest isfile open sha256 tree path exclude final
    hash members filename :
  dupfinder isfile open sha256 tree path exclude = Ok final →
  (hash, members) ∈ final → filename ∈ members →
  ∃ content, open filename = Some content ∧ sha256 content = hash.
Proof.
  rewrite dupfinder_passes. intros (d1 & d2 & Hd1 & Hd2 & Hd3)%passes_Ok Hin Hmem.
  pose proof (pass_member_digest _ _ _ _ _ _ _ _ Hd3 Hin Hmem) as Hdig.
  pose proof (duplicates_Ok_readable _ _ _ _ _ Hd3) as Hall.
  rewrite Forall_forall in Hall.
  destruct (Hall filename) as [c Hc].
  { apply (pass_entry _ _ _ _ _ _ _ Hd3) in Hin as [-> _].
    by apply list_elem_of_filter in Hmem as [_ ?]. }
  exists c. split; [done|]. by rewrite <- (item_of_full sha256 open filename c Hc).
Qed.

Lemma final_groups_share_full_digest_witness :
  dupfinder scenario_isfile scenario_open plain scenario_tree "." None
  = Ok [(plain (replicate 5000 x58), ["./a.txt"; "./b.txt"])]
  ∧ ∃ content, scenario_open "./b.txt" = Some content
               ∧ plain content = plain (replicate 5000 x58).
Proof.
  assert (dupfinder scenario_isfile scenario_open plain scenario_tree "." None
          = Ok [(plain (replicate 5000 x58), ["./a.txt"; "./b.txt"])]) as Hd.
  { vm_compute. reflexivity. }
  split; [exact Hd|].
  refine (final_groups_share_full_digest _ _ _ _ _ _ _ _ ["./a.txt"; "./b.txt"] _ Hd _ _).
  - apply elem_of_cons. by left.
  - apply elem_of_cons. right. apply elem_of_cons. by left.
Defined.

Section ExactMapping.
Variable hashfunc : list byte → string.
Variable open : string → option (list byte).

Lemma filter_full_digest files h :
  Forall (readable open) files →
  filter (λ f, (item_of hashfunc open 0 f).1 = h) files
  = filter (λ f, hashfunc <$> open f = Some h) files.
Proof.
  intros Hall. apply filter_ext_in. intros f Hf.
  rewrite Forall_forall in Hall. destruct (Hall f Hf) as [c Hc].
  rewrite (item_of_full _ _ _ _ Hc), Hc. simpl. split; [by intros -> | by intros [= ->]].
Qed.

Lemma distinct_contents_filter files h :
  (∀ f1 f2 c1 c2, f1 ∈ files → f2 ∈ files → open f1 = Some c1 → open f2 = Some c2 →
     hashfunc c1 = hashfunc c2 → c1 = c2) →
  NoDup (open <$> files) →
  (length (filter (λ f, hashfunc <$> open f = Some h) files) ≤ 1)%nat.
Proof.
  intros Hinj Hnd.
  assert (∀ f1 f2, f1 ∈ files → f2 ∈ files →
            hashfunc <$> open f1 = Some h → hashfunc <$> open f2 = Some h →
            open f1 = open f2) as Hsame.
  { intros f1 f2 H1 H2 E1 E2.
    destruct (open f1) as [c1|] eqn:Ho1; [|done]. destruct (open f2) as [c2|] eqn:Ho2; [|done].
    simpl in E1, E2. f_equal. apply (Hinj f1 f2); [done..|congruence]. }
  clear Hinj. induction files as [|f files IH]; [simpl; lia|].
  rewrite fmap_cons in Hnd. apply NoDup_cons in Hnd as [Hf Hnd].
  assert (length (filter (λ f, hashfunc <$> open f = Some h) files) ≤ 1)%nat as Hle.
  { apply IH; [done|]. intros f1 f2 H1 H2. apply Hsame; apply elem_of_cons; by right. }
  rewrite filter_cons. case_decide as HP; [|done].
  rewrite filter_none; [simpl; lia|].
  intros f' Hf' HP'. apply Hf. apply list_elem_of_fmap. exists f'. split; [|done].
  apply Hsame; [apply elem_of_cons; by left | apply elem_of_cons; by right | done..].
Qed.

End ExactMapping.

(** X7.  With readable files and a hash function that does not collide on
    their contents, the mapping of the three passes is exact, whatever the
    two prefix lengths: a digest has a group exactly when at least two
    enumerated files have it as the digest of their full contents, and the
    group is all those files, in the order of the enumeration.  When the
    contents of the enumerated files are pairwise different the mapping is
    empty.  [dupfinder] is these passes on the output of [filewalker]. *)
Theorem final_mapping_exact hashfunc open scan1 scan2 files :
  Forall (readable open) files →
  (∀ f1 f2 c1 c2, f1 ∈ files → f2 ∈ files → open f1 = Some c1 → open f2 = Some c2 →
     hashfunc c1 = hashfunc c2 → c1 = c2) →
  (∃ final,
     passes hashfunc open scan1 scan2 files = Ok final
     ∧ (∀ hash members,
          (hash, members) ∈ final ↔
          members = filter (λ f, hashfunc <$> open f = Some hash) files
          ∧ (2 ≤ length members)%nat)
     ∧ (NoDup (open <$> files) → final = []))
  ∧ (∀ isfile tree path exclude,
       dupfinder isfile open hashfunc tree path exclude
       = passes hashfunc open SCANSIZE (100 * SCANSIZE) (filewalker isfile tree path exclude)).
Proof.
  intros Hall Hinj. split; [|done].
  pose proof (duplicates_readable hashfunc open files scan1 Hall) as Hd1.
  set (d1 := (group_loop (item_of hashfunc open scan1 <$> files)).2) in Hd1.
  pose proof (pass_flatten_readable _ _ _ _ _ Hd1) as Hall1.
  pose proof (duplicates_readable hashfunc open _ scan2 Hall1) as Hd2.
  set (d2 := (group_loop (item_of hashfunc open scan2 <$> flatten d1)).2) in Hd2.
  pose proof (pass_flatten_readable _ _ _ _ _ Hd2) as Hall2.
  pose proof (duplicates_readable hashfunc open _ 0 Hall2) as Hd3.
  set (d3 := (group_loop (item_of hashfunc open 0 <$> flatten d2)).2) in Hd3.
  assert (∀ h g, (h, g) ∈ d3 ↔
            g = filter (λ f, hashfunc <$> open f = Some h) files ∧ (2 ≤ length g)%nat)
    as Hexact.
  { intros h g. set (P := λ f, hashfunc <$> open f = Some h).
    assert (∀ scansize f1 f2, f1 ∈ files → f2 ∈ files → P f1 → P f2 →
              (item_of hashfunc open scansize f1).1 = (item_of hashfunc open scansize f2).1)
      as Hone.
    { intros s f1 f2 H1 H2 E1 E2. unfold P in E1, E2. unfold item_of. simpl.
      destruct (open f1) as [c1|] eqn:Ho1; [|done]. destruct (open f2) as [c2|] eqn:Ho2; [|done].
      simpl in *. by rewrite (Hinj f1 f2 c1 c2) by (done || congruence). }
    pose proof (filter_pass hashfunc open P files scan1 d1 Hd1 (Hone scan1)) as H1.
    assert (∀ f1 f2, f1 ∈ flatten d1 → f2 ∈ flatten d1 → P f1 → P f2 →
              (item_of hashfunc open scan2 f1).1 = (item_of hashfunc open scan2 f2).1)
      as Hone2.
    { intros f1 f2 Hf1 Hf2. apply Hone; by eapply pass_flatten_subset. }
    pose proof (filter_pass hashfunc open P (flatten d1) scan2 d2 Hd2 Hone2) as H2.
    rewrite (pass_entry _ _ _ _ _ _ _ Hd3), (filter_full_digest _ _ _ _ Hall2).
    fold P. split.
    - intros [-> Hlen]. split; [|done].
      destruct H2 as [H2|[H2 _]]; [|rewrite H2 in Hlen; simpl in Hlen; lia].
      rewrite H2 in Hlen |- *.
      destruct H1 as [H1|[H1 _]]; [done | rewrite H1 in Hlen; simpl in Hlen; lia].
    - intros [-> Hlen].
      destruct H1 as [H1|[_ H1]]; [|lia].
      destruct H2 as [H2|[_ H2]]; [|rewrite H1 in H2; lia].
      rewrite H2, H1. by split. }
  exists d3. split_and!.
  - unfold passes. by rewrite Hd1, Hd2.
  - exact Hexact.
  - intros Hnd. destruct d3 as [|[h g] d3'] eqn:E; [done|].
    assert ((h, g) ∈ (h, g) :: d3') as Hin by (apply elem_of_cons; by left).
    apply Hexact in Hin as [-> Hlen].
    pose proof (distinct_contents_filter hashfunc open files h Hinj Hnd). lia.
Qed.

Lemma final_mapping_exact_witness :
  Forall (readable scenario_open) ["./a.txt"; "./d.txt"; "./c.txt"; "./b.txt"]
  ∧ passes plain scenario_open 1 2 ["./a.txt"; "./d.txt"; "./c.txt"; "./b.txt"]
    = Ok [(plain (replicate 5000 x58), ["./a.txt"; "./b.txt"])]
  ∧ ∃ final,
      passes plain scenario_open 1 2 ["./a.txt"; "./d.txt"; "./c.txt"; "./b.txt"] = Ok final
      ∧ (∀ hash members,
           (hash, members) ∈ final ↔
           members = filter (λ f, plain <$> scenario_open f = Some hash)
                       ["./a.txt"; "./d.txt"; "./c.txt"; "./b.txt"]
           ∧ (2 ≤ length members)%nat)
      ∧ (NoDup (scenario_open <$> ["./a.txt"; "./d.txt"; "./c.txt"; "./b.txt"]) → final = []).
Proof.
  assert (Forall (readable scenario_open) ["./a.txt"; "./d.txt"; "./c.txt"; "./b.txt"])
    as Hall.
  { apply (bool_decide_unpack _). vm_compute. exact I. }
  split_and!; [exact Hall | vm_compute; reflexivity |].
  refine (proj1 (final_mapping_exact plain scenario_open 1 2 _ Hall _)).
  intros f1 f2 c1 c2 _ _ _ _. apply plain_inj.
Defined.

(** ** The text output *)

Section PrintFacts.

Lemma middle_frame first mid lst : middle (first :: mid ++ [lst]) = mid.
Proof.
  unfold middle. simpl. rewrite length_app. simpl.
  rewrite Nat.sub_0_r, Nat.add_sub, drop_0. apply take_app_length.
Qed.

Lemma print_group_frame first mid lst :
  print_group (first :: mid ++ [lst])
  = (["┏ " +:+ first] ++ ((λ file, "┃ " +:+ file) <$> mid) ++ ["┗ " +:+ lst], None).
Proof.
  unfold print_group. rewrite middle_frame.
  by replace (last (first :: mid ++ [lst])) with (Some lst)
    by (symmetry; apply (last_snoc lst (first :: mid))).
Qed.

(** A list of two or more elements is a first one, a middle, and a last. *)
Lemma two_or_more {A} (l : list A) :
  (2 ≤ length l)%nat → ∃ first mid lst, l = first :: mid ++ [lst].
Proof.
  destruct l as [|first l]; [simpl; lia|]. intros Hlen.
  destruct l as [|x l _] using rev_ind; [simpl in Hlen; lia|].
  by exists first, l, x.
Qed.

Lemma print_txt_cons h g (dups : ODict.t (list string)) :
  print_txt ((h, g) :: dups) =
  match print_group g with
  | (lines, Some e) => (lines, Some e)
  | (lines, None) => (lines ++ (print_txt dups).1, (print_txt dups).2)
  end.
Proof. simpl. destruct (print_group g) as [lines [e|]]; [done|]. by destruct (print_txt dups). Qed.

(** The lines printed for groups of two or more members. *)
Lemma print_txt_groups (dups : ODict.t (list string)) :
  (∀ h g, (h, g) ∈ dups → (2 ≤ length g)%nat) →
  ∃ lines, print_txt dups = (lines, None)
    ∧ Forall2 (λ line file,
                 line = "┏ " +:+ file ∨ line = "┃ " +:+ file ∨ line = "┗ " +:+ file)
        lines (flatten dups)
    ∧ length (filter (λ line, startswith line "┏ " = true) lines) = length dups.
Proof.
  induction dups as [|[h g] dups IH]; intros Hlen.
  - exists []. split_and!; [done | constructor | done].
  - destruct IH as (more & Hmore & Hall & Hcount).
    { intros h' g' Hin. apply (Hlen h' g'), elem_of_cons. by right. }
    destruct (two_or_more g) as (first & mid & lst & ->).
    { apply (Hlen h), elem_of_cons. by left. }
    eexists. rewrite print_txt_cons, print_group_frame, Hmore. split; [done|].
    unfold flatten, ODict.values in *. rewrite fmap_cons. cbn [fst snd].
    change (concat ((first :: mid ++ [lst]) :: dups.*2))
      with (([first] ++ mid ++ [lst]) ++ concat dups.*2).
    split.
    + apply Forall2_app; [|done]. apply Forall2_app; [constructor; [by left | constructor]|].
      apply Forall2_app; [|constructor; [by right; right | constructor]].
      apply Forall2_fmap_l, Forall_Forall2_diag, Forall_forall. intros; by right; left.
    + rewrite !filter_app, !length_app, Hcount, filter_cons_True by done.
      rewrite (filter_none (λ line, startswith line "┏ " = true) (_ <$> mid)).
      * rewrite filter_cons_False by done. done.
      * by intros line (file & -> & _)%list_elem_of_fmap.
Qed.

End PrintFacts.

Lemma print_txt_app (dups more : ODict.t (list string)) :
  print_txt (dups ++ more) =
  match (print_txt dups).2 with
  | Some e => print_txt dups
  | None => ((print_txt dups).1 ++ (print_txt more).1, (print_txt more).2)
  end.
Proof.
  induction dups as [|[h g] dups IH].
  - simpl. by destruct (print_txt more).
  - change (((h, g) :: dups) ++ more) with ((h, g) :: (dups ++ more)).
    rewrite !print_txt_cons, IH.
    destruct (print_group g) as [lines [e|]]; [done|].
    destruct (print_txt dups) as [l1 [e1|]]; simpl; [done|].
    by rewrite app_assoc.
Qed.

(** X8.  The text output frames a group: the first member after the marker
    [┏], the last after [┗], and each member between them after [┃], one
    line per member in the order of the group.  A group of one member is
    printed twice, as first and as last.  An empty group raises
    [IndexError] before a line of it is printed, and ends the output after
    the lines of the groups before it. *)
Theorem print_group_frames :
  (∀ first mid lst,
     print_group (first :: mid ++ [lst])
     = (["┏ " +:+ first] ++ ((λ file, "┃ " +:+ file) <$> mid) ++ ["┗ " +:+ lst], None))
  ∧ (∀ first lst, print_group [first; lst] = (["┏ " +:+ first; "┗ " +:+ lst], None))
  ∧ (∀ only, print_group [only] = (["┏ " +:+ only; "┗ " +:+ only], None))
  ∧ print_group [] = ([], Some IndexError)
  ∧ (∀ (dups : ODict.t (list string)) hash rest,
       (print_txt dups).2 = None →
       print_txt (dups ++ (hash, []) :: rest) = ((print_txt dups).1, Some IndexError)).
Proof.
  split_and!.
  - apply print_group_frame.
  - intros first lst. apply (print_group_frame first []).
  - done.
  - done.
  - intros dups h rest Hok. rewrite print_txt_app, Hok, print_txt_cons. simpl.
    by rewrite app_nil_r.
Qed.

Lemma print_group_frames_witness :
  (print_txt [("h", ["a"; "b"])]).2 = None
  ∧ print_txt ([("h", ["a"; "b"])] ++ ("k", []) :: [("j", ["x"; "y"])])
    = (["┏ a"; "┗ b"], Some IndexError).
Proof.
  assert ((print_txt [("h", ["a"; "b"])]).2 = None) as Hok by reflexivity.
  split; [exact Hok|].
  exact (proj2 (proj2 (proj2 (proj2 print_group_frames))) _ "k" [("j", ["x"; "y"])] Hok).
Defined.

(** X9.  The loop that prints the mapping [dupfinder] returns raises no
    [IndexError]: every group has two members or more, so [list[0]] and
    [list[-1]] exist.  The loop hands to [print] exactly one line for each
    path of the mapping, in the order of the mapping, each line a marker, a
    space and the path, and exactly one line with the marker [┏] for each
    group.  (A failure of [print] itself, as when the output stream cannot
    encode a line, is not modelled.) *)
Theorem print_txt_lists_every_path isfile open sha256 tree path exclude final :
  dupfinder isfile open sha256 tree path exclude = Ok final →
  ∃ lines,
    print_txt final = (lines, None)
    ∧ Forall2 (λ line file,
                 line = "┏ " +:+ file ∨ line = "┃ " +:+ file ∨ line = "┗ " +:+ file)
        lines (flatten final)
    ∧ length lines = length (flatten final)
    ∧ length (filter (λ line, startswith line "┏ " = true) lines) = length final.
Proof.
  rewrite dupfinder_passes. intros (d1 & d2 & Hd1 & Hd2 & Hd3)%passes_Ok.
  destruct (print_txt_groups final) as (lines & Hlines & Hall & Hcount).
  { intros h g Hin. by apply (pass_entry _ _ _ _ _ _ _ Hd3) in Hin as [_ ?]. }
  exists lines. split_and!; [done | done | by eapply Forall2_length | done].
Qed.

Lemma print_txt_lists_every_path_witness :
  dupfinder scenario_isfile scenario_open plain scenario_tree "." None
  = Ok [(plain (replicate 5000 x58), ["./a.txt"; "./b.txt"])]
  ∧ print_txt [(plain (replicate 5000 x58), ["./a.txt"; "./b.txt"])]
    = (["┏ ./a.txt"; "┗ ./b.txt"], None)
  ∧ ∃ lines,
      print_txt [(plain (replicate 5000 x58), ["./a.txt"; "./b.txt"])] = (lines, None)
      ∧ Forall2 (λ line file,
                   line = "┏ " +:+ file ∨ line = "┃ " +:+ file ∨ line = "┗ " +:+ file)
          lines (flatten [(plain (replicate 5000 x58), ["./a.txt"; "./b.txt"])])
      ∧ length lines
        = length (flatten [(plain (replicate 5000 x58), ["./a.txt"; "./b.txt"])])
      ∧ length (filter (λ line, startswith line "┏ " = true) lines)
        = length [(plain (replicate 5000 x58), ["./a.txt"; "./b.txt"])].
Proof.
  assert (dupfinder scenario_isfile scenario_open plain scenario_tree "." None
          = Ok [(plain (replicate 5000 x58), ["./a.txt"; "./b.txt"])]) as Hd.
  { vm_compute. reflexivity. }
  split_and!; [exact Hd | reflexivity |].
  exact (print_txt_lists_every_path _ _ _ _ _ _ _ Hd).
Defined.

(** ** Paths of a proper directory tree *)

Section PathFacts.

Lemma append_nil_l (t : string) : "" +:+ t = t.
Proof. reflexivity. Qed.

Lemma append_cons c (s t : string) : String c s +:+ t = String c (s +:+ t).
Proof. reflexivity. Qed.

Lemma append_assoc (a b c : string) : (a +:+ b) +:+ c = a +:+ b +:+ c.
Proof.
  induction a as [|x a IH]; [by rewrite !append_nil_l|].
  rewrite !append_cons. by f_equal.
Qed.

Lemma append_inj (s a b : string) : s +:+ a = s +:+ b → a = b.
Proof.
  induction s as [|x s IH]; [by rewrite !append_nil_l|].
  rewrite !append_cons. intros [= H]. auto.
Qed.

Lemma startswith_nil s : startswith s "" = true.
Proof. by destruct s. Qed.

Lemma startswith_append s t : startswith (s +:+ t) s = true.
Proof.
  induction s as [|x s IH]; [apply startswith_nil|].
  rewrite append_cons. simpl. by rewrite Ascii.eqb_refl, IH.
Qed.

Lemma contains_sep_cons c s :
  contains (String c s) "/" = Ascii.eqb "/" c || contains s "/".
Proof.
  change (contains (String c s) "/") with (startswith (String c s) "/" || contains s "/").
  f_equal.
  change (startswith (String c s) "/") with (Ascii.eqb "/" c && startswith s "").
  by rewrite startswith_nil, andb_true_r.
Qed.

Lemma contains_append_r s t e : contains t e = true → contains (s +:+ t) e = true.
Proof.
  intros Ht. induction s as [|x s IH]; [done|].
  rewrite append_cons. simpl. rewrite IH. apply orb_true_r.
Qed.

Lemma contains_sep_middle n r : contains (n +:+ "/" +:+ r) "/" = true.
Proof. apply contains_append_r. by rewrite append_cons, contains_sep_cons. Qed.

Lemma entry_name_spec n :
  entry_name n = true ↔ n ≠ "" ∧ contains n "/" = false.
Proof.
  unfold entry_name. rewrite andb_true_iff, !negb_true_iff, bool_decide_eq_false. done.
Qed.

Lemma entry_name_startswith n : entry_name n = true → startswith n "/" = false.
Proof.
  intros [Hne Hc]%entry_name_spec. destruct n as [|c n]; [done|].
  rewrite contains_sep_cons in Hc. apply orb_false_elim in Hc as [Hc _].
  change (startswith (String c n) "/") with (Ascii.eqb "/" c && startswith n "").
  by rewrite Hc.
Qed.

Lemma endswith_sep_contains s : endswith_sep s = true → contains s "/" = true.
Proof.
  induction s as [|c s IH]; [done|]. rewrite contains_sep_cons.
  destruct s as [|c' s'].
  - change (endswith_sep (String c "")) with (Ascii.eqb c "/").
    intros H. by rewrite Ascii.eqb_sym, H.
  - change (endswith_sep (String c (String c' s'))) with (endswith_sep (String c' s')).
    intros H. rewrite IH by done. apply orb_true_r.
Qed.

Lemma endswith_sep_append a n : n ≠ "" → endswith_sep (a +:+ n) = endswith_sep n.
Proof.
  intros Hn. induction a as [|c a IH]; [done|].
  rewrite append_cons, <- IH. destruct (a +:+ n) eqn:E; [|done].
  destruct a; [rewrite append_nil_l in E; by subst | by rewrite append_cons in E].
Qed.

Lemma path_join_base top n :
  startswith n "/" = false → path_join top n = join_base top +:+ n.
Proof.
  intros Hn. unfold path_join, join_base. rewrite Hn.
  destruct (decide (top = "")); [done|].
  destruct (endswith_sep top); [done|]. by rewrite append_assoc.
Qed.

(** The base of a sub-directory with a proper name. *)
Lemma join_base_sub top n :
  entry_name n = true → join_base (join_base top +:+ n) = join_base top +:+ n +:+ "/".
Proof.
  intros Hn. pose proof Hn as [Hne Hc]%entry_name_spec.
  unfold join_base at 1.
  rewrite decide_False.
  - rewrite endswith_sep_append by done.
    destruct (endswith_sep n) eqn:He; [|by rewrite append_assoc].
    apply endswith_sep_contains in He. congruence.
  - intros E. destruct (join_base top); [rewrite append_nil_l in E; by subst|].
    by rewrite append_cons in E.
Qed.

(** Paths that part at their first separator part at the same place. *)
Lemma split_at_sep n n' r r' :
  contains n "/" = false → contains n' "/" = false →
  n +:+ "/" +:+ r = n' +:+ "/" +:+ r' → n = n' ∧ r = r'.
Proof.
  revert n'. induction n as [|c n IH]; intros [|c' n'] Hn Hn'.
  - rewrite !append_nil_l. by intros ->%append_inj.
  - rewrite append_nil_l, !append_cons, append_nil_l. intros [= <- _].
    rewrite contains_sep_cons in Hn'. by rewrite Ascii.eqb_refl in Hn'.
  - rewrite append_nil_l, !append_cons, append_nil_l. intros [= -> _].
    rewrite contains_sep_cons in Hn. by rewrite Ascii.eqb_refl in Hn.
  - rewrite contains_sep_cons in Hn, Hn'.
    apply orb_false_elim in Hn as [_ Hn], Hn' as [_ Hn'].
    rewrite !(append_cons _ _ ("/" +:+ _)).
    intros [= -> H]. destruct (IH n' Hn Hn' H) as [-> ->]. done.
Qed.

End PathFacts.

Section TreeFacts.

Lemma proper_tree_unfold subdirs nondirs :
  proper_tree (Dir subdirs nondirs) = true ↔
  Forall (λ n, entry_name n = true) (subdirs.*1 ++ nondirs)
  ∧ NoDup (subdirs.*1 ++ nondirs)
  ∧ Forall (λ sub, proper_tree sub.2 = true) subdirs.
Proof.
  change (proper_tree (Dir subdirs nondirs))
    with (forallb entry_name (subdirs.*1 ++ nondirs)
          && bool_decide (NoDup (subdirs.*1 ++ nondirs))
          && forallb (λ sub, proper_tree sub.2) subdirs).
  rewrite !andb_true_iff, bool_decide_eq_true, !forallb_forall, !Forall_forall.
  setoid_rewrite <- list_elem_of_In. tauto.
Qed.

Lemma flat_map_flat_map {A B C} (f : B → list C) (g : A → list B) (l : list A) :
  flat_map f (flat_map g l) = flat_map (λ x, flat_map f (g x)) l.
Proof.
  induction l as [|x l IH]; [done|]. simpl. by rewrite flat_map_app, IH.
Qed.

Lemma all_paths_unfold top subdirs nondirs :
  all_paths top (Dir subdirs nondirs)
  = (path_join top <$> nondirs)
    ++ flat_map (λ sub, all_paths (path_join top sub.1) sub.2) subdirs.
Proof.
  unfold all_paths. rewrite os_walk_unfold.
  change (flat_map ?f (?x :: ?l)) with (f x ++ flat_map f l).
  by rewrite flat_map_flat_map.
Qed.

Lemma rel_paths_unfold subdirs nondirs :
  rel_paths (Dir subdirs nondirs)
  = nondirs ++ flat_map (λ sub, (λ r, sub.1 +:+ "/" +:+ r) <$> rel_paths sub.2) subdirs.
Proof. done. Qed.

(** The joined paths are the relative paths behind the base of the top. *)
Lemma all_paths_rel tree : ∀ top,
  proper_tree tree = true →
  all_paths top tree = (λ r, join_base top +:+ r) <$> rel_paths tree.
Proof.
  induction tree as [subdirs nondirs IH] using dirtree_induction.
  intros top (Hnames & _ & Hsubs)%proper_tree_unfold.
  rewrite all_paths_unfold, rel_paths_unfold, fmap_app.
  apply Forall_app in Hnames as [Hdirs Hfiles]. f_equal.
  - apply list_fmap_ext. intros i f Hf. apply path_join_base, entry_name_startswith.
    rewrite Forall_forall in Hfiles. apply Hfiles. by eapply list_elem_of_lookup_2.
  - clear Hfiles. induction subdirs as [|[n t] subdirs IHs]; [done|].
    apply Forall_cons in IH as [IHt IH], Hsubs as [Ht Hsubs].
    rewrite fmap_cons in Hdirs. apply Forall_cons in Hdirs as [Hn Hdirs].
    change (flat_map ?f (?x :: ?l)) with (f x ++ flat_map f l).
    rewrite fmap_app. cbn [fst snd] in *. f_equal; [|by apply IHs].
    rewrite IHt by done.
    rewrite path_join_base by by apply entry_name_startswith.
    rewrite join_base_sub by done.
    rewrite <- list_fmap_compose. apply list_fmap_ext. intros i r _. simpl.
    by rewrite !append_assoc.
Qed.

Lemma elem_of_rel_sub (subdirs : list (string * dirtree)) r :
  r ∈ flat_map (λ sub, (λ r, sub.1 +:+ "/" +:+ r) <$> rel_paths sub.2) subdirs →
  ∃ n t r', (n, t) ∈ subdirs ∧ r = n +:+ "/" +:+ r'.
Proof.
  intros ([n t] & Hin & (r' & -> & _)%list_elem_of_fmap)%elem_of_flat_map.
  by exists n, t, r'.
Qed.

Lemma rel_paths_NoDup tree : proper_tree tree = true → NoDup (rel_paths tree).
Proof.
  induction tree as [subdirs nondirs IH] using dirtree_induction.
  intros (Hnames & Hnd & Hsubs)%proper_tree_unfold.
  rewrite rel_paths_unfold.
  apply Forall_app in Hnames as [Hdirs Hfiles].
  apply NoDup_app in Hnd as (Hnddirs & _ & Hndfiles).
  apply NoDup_app. split_and!; [done | |].
  - intros f Hf (n & t & r' & _ & ->)%elem_of_rel_sub.
    rewrite Forall_forall in Hfiles. apply Hfiles, entry_name_spec in Hf as [_ Hf].
    by rewrite contains_sep_middle in Hf.
  - clear Hfiles Hndfiles. induction subdirs as [|[n t] subdirs IHs]; [constructor|].
    apply Forall_cons in IH as [IHt IH], Hsubs as [Ht Hsubs].
    rewrite fmap_cons in Hdirs, Hnddirs.
    apply Forall_cons in Hdirs as [Hn Hdirs]. apply NoDup_cons in Hnddirs as [Hfresh Hnddirs].
    change (flat_map ?f (?x :: ?l)) with (f x ++ flat_map f l).
    cbn [fst snd] in *. apply NoDup_app. split_and!; [| |by apply IHs].
    + apply (NoDup_fmap_2_strong _); [|by apply IHt].
      intros a b _ _ H. by apply append_inj, append_inj in H.
    + intros r (r1 & -> & _)%list_elem_of_fmap (n' & t' & r2 & Hin & Heq)%elem_of_rel_sub.
      apply entry_name_spec in Hn as [_ Hn].
      assert (contains n' "/" = false) as Hn'.
      { rewrite Forall_forall in Hdirs.
        apply (entry_name_spec n'), Hdirs, list_elem_of_fmap. by exists (n', t'). }
      destruct (split_at_sep _ _ _ _ Hn Hn' Heq) as [-> _].
      apply Hfresh, list_elem_of_fmap. by exists (n', t').
Qed.

Lemma all_paths_NoDup top tree : proper_tree tree = true → NoDup (all_paths top tree).
Proof.
  intros Hp. rewrite all_paths_rel by done.
  apply (NoDup_fmap_2_strong _); [|by apply rel_paths_NoDup].
  intros a b _ _ H. by apply append_inj in H.
Qed.

Lemma sublist_flat_map {A B} (f g : A → list B) (l : list A) :
  (∀ x, f x `sublist_of` g x) → flat_map f l `sublist_of` flat_map g l.
Proof.
  intros Hfg. induction l as [|x l IH]; [done|]. simpl. by apply sublist_app.
Qed.

Lemma sublist_List_filter {A} (p : A → bool) (l : list A) : List.filter p l `sublist_of` l.
Proof.
  induction l as [|x l IH]; [done|]. simpl.
  destruct (p x); [by apply sublist_skip | by apply sublist_cons].
Qed.

Lemma walk_dir_sublist isfile exclude entry :
  walk_dir isfile exclude entry `sublist_of` walk_dir isfile None entry
  ∧ walk_dir isfile None entry `sublist_of` (path_join entry.1.1 <$> entry.2).
Proof.
  destruct entry as [[d dirnames] filenames]. unfold walk_dir. cbn [fst snd].
  split; [|apply sublist_List_filter].
  destruct (excluded exclude d); [apply sublist_nil_l | done].
Qed.

Lemma filewalker_sublist isfile tree path exclude :
  filewalker isfile tree path exclude `sublist_of` filewalker isfile tree path None
  ∧ filewalker isfile tree path None `sublist_of` all_paths path tree.
Proof.
  unfold filewalker, all_paths.
  split; apply sublist_flat_map; intros entry.
  - apply (proj1 (walk_dir_sublist isfile exclude entry)).
  - apply (proj2 (walk_dir_sublist isfile None entry)).
Qed.

Lemma filewalker_NoDup isfile tree path exclude :
  proper_tree tree = true → NoDup (filewalker isfile tree path exclude).
Proof.
  intros Hp. destruct (filewalker_sublist isfile tree path exclude) as [H1 H2].
  eapply sublist_NoDup; [by apply (all_paths_NoDup path)|]. by etrans.
Qed.

End TreeFacts.

(** X10.  Exclusion strings only remove paths: the enumeration with
    exclusions is the enumeration without them with some paths left out, in
    the same order, and adding exclusion strings leaves out more. *)
Theorem exclusions_only_remove isfile tree path exclude more :
  filewalker isfile tree path (Some (exclude ++ more))
    `sublist_of` filewalker isfile tree path (Some exclude)
  ∧ filewalker isfile tree path (Some exclude)
    `sublist_of` filewalker isfile tree path None.
Proof.
  split; [|apply filewalker_sublist].
  unfold filewalker. apply sublist_flat_map. intros [[d dirnames] filenames].
  unfold walk_dir. destruct (excluded (Some exclude) d) eqn:Hex.
  - assert (excluded (Some (exclude ++ more)) d = true) as ->; [|done].
    apply excluded_Some in Hex as (e & He & Hc). apply excluded_Some.
    exists e. split; [|done]. apply elem_of_app. by left.
  - destruct (excluded (Some (exclude ++ more)) d); [apply sublist_nil_l | done].
Qed.

(** X11.  On a directory tree whose entries have proper names, different
    from one another within a directory, [filewalker] yields no path twice,
    and every path it yields is the root path, a separator unless the root
    path is empty or ends with one, and the path of an entry relative to the
    root; so every yielded path starts with the root path.  [dupfinder]
    then reports no path twice. *)
Theorem filewalker_paths_distinct isfile tree path exclude :
  proper_tree tree = true →
  NoDup (filewalker isfile tree path exclude)
  ∧ (∀ fpath, fpath ∈ filewalker isfile tree path exclude →
       startswith fpath path = true
       ∧ ∃ r, r ∈ rel_paths tree ∧ fpath = join_base path +:+ r)
  ∧ (∀ open sha256 final,
       dupfinder isfile open sha256 tree path exclude = Ok final →
       NoDup (flatten final)).
Proof.
  intros Hp. pose proof (filewalker_NoDup isfile tree path exclude Hp) as Hnd.
  split_and!; [done | |].
  - intros fpath Hin.
    destruct (filewalker_sublist isfile tree path exclude) as [H1 H2].
    assert (fpath ∈ all_paths path tree) as Hall.
    { eapply elem_of_sublist; [|exact H2]. by eapply elem_of_sublist. }
    rewrite all_paths_rel in Hall by done.
    apply list_elem_of_fmap in Hall as (r & -> & Hr). split; [|by exists r].
    unfold join_base. destruct (decide (path = "")) as [->|]; [apply startswith_nil|].
    destruct (endswith_sep path); [apply startswith_append|].
    rewrite append_assoc. apply startswith_append.
  - intros open sha256 final. rewrite dupfinder_passes.
    intros (d1 & d2 & Hd1 & Hd2 & Hd3)%passes_Ok.
    assert (flatten final ⊆+ filewalker isfile tree path exclude) as Hsub.
    { etrans; [by eapply pass_flatten_submseteq|].
      etrans; by eapply pass_flatten_submseteq. }
    apply submseteq_Permutation in Hsub as [rest Hperm].
    rewrite Hperm in Hnd. by apply NoDup_app in Hnd as [? _].
Qed.

Lemma filewalker_paths_distinct_witness :
  proper_tree (Dir [("cache", Dir [("old", Dir [] ["x.bin"])] ["y.bin"])] ["a.txt"]) = true
  ∧ filewalker scenario_isfile
      (Dir [("cache", Dir [("old", Dir [] ["x.bin"])] ["y.bin"])] ["a.txt"]) "." None
    = ["./a.txt"; "./cache/y.bin"; "./cache/old/x.bin"]
  ∧ NoDup (filewalker scenario_isfile
             (Dir [("cache", Dir [("old", Dir [] ["x.bin"])] ["y.bin"])] ["a.txt"]) "." None).
Proof.
  assert (proper_tree (Dir [("cache", Dir [("old", Dir [] ["x.bin"])] ["y.bin"])] ["a.txt"])
          = true) as Hp by reflexivity.
  split_and!; [exact Hp | reflexivity |].
  exact (proj1 (filewalker_paths_distinct scenario_isfile _ "." None Hp)).
Defined.

(** X12.  The mapping of a pass keeps its groups in the order in which
    their digests arrived for the second time: a digest is added, behind all
    others, when its second path arrives, and no other arrival changes the
    digests of the mapping or their order. *)
Theorem groups_in_order_of_second_arrival :
  ODict.keys (group_loop []).2 = []
  ∧ ∀ items hash filename,
      ODict.keys (group_loop (items ++ [(hash, filename)])).2
      = ODict.keys (group_loop items).2
        ++ (if decide (length (paths_of hash items) = 1%nat) then [hash] else []).
Proof.
  split; [done|]. intros items h p.
  rewrite group_loop_snoc.
  pose proof (group_loop_grouped items) as [_ Hget Hcand].
  specialize (Hget h). specialize (Hcand h).
  destruct (group_loop items) as [c d]. simpl in *.
  destruct (ODict.get h d) as [g|] eqn:Hg.
  - case_decide as Hlen; [|done]. simpl.
    rewrite ODictFacts.keys_set_present by by rewrite Hg.
    rewrite decide_False by lia. by rewrite app_nil_r.
  - case_decide as Hlen; [done|].
    destruct (c !! h) as [q|] eqn:Hc; simpl.
    + rewrite ODictFacts.keys_set_fresh by done.
      destruct (paths_of h items) as [|x [|y l]]; simpl in *; [done | done | lia].
    + destruct (paths_of h items) as [|x l]; [|done]. simpl. by rewrite app_nil_r.
Qed.

(** ** The order of the enumeration *)

Section OrderFacts.
Variable hashfunc : list byte → string.
Variable open : string → option (list byte).

(** A pass over the same files in another order: the same digests have
    groups, with the same members, and the same files are handed on. *)
Lemma pass_Permutation files files' scansize dups :
  files ≡ₚ files' →
  duplicates hashfunc open files scansize = Ok dups →
  ∃ dups',
    duplicates hashfunc open files' scansize = Ok dups'
    ∧ flatten dups ≡ₚ flatten dups'
    ∧ ∀ h g, (h, g) ∈ dups → ∃ g', (h, g') ∈ dups' ∧ g ≡ₚ g'.
Proof.
  intros Hperm Hd. pose proof (duplicates_Ok_readable _ _ _ _ _ Hd) as Hall.
  assert (Forall (readable open) files') as Hall' by by rewrite <- Hperm.
  pose proof (duplicates_readable hashfunc open files' scansize Hall') as Hd'.
  eexists. split; [exact Hd'|]. split.
  - rewrite (pass_flatten_Permutation _ _ _ _ _ Hd), (pass_flatten_Permutation _ _ _ _ _ Hd').
    rewrite Hperm. erewrite list_filter_iff; [done|]. intros f. simpl. by rewrite Hperm.
  - intros h g [-> Hlen]%(pass_entry _ _ _ _ _ _ _ Hd).
    exists (filter (λ f, (item_of hashfunc open scansize f).1 = h) files').
    split; [|by rewrite Hperm]. apply (pass_entry _ _ _ _ _ _ _ Hd').
    split; [done|]. by rewrite <- Hperm.
Qed.

End OrderFacts.

(** X13.  The groups of the three passes do not depend on the order of the
    enumeration: on the same files in another order the passes return a
    mapping with the same digests, and under each digest the same members,
    up to their order. *)
Theorem groups_independent_of_enumeration_order
    hashfunc open scan1 scan2 files files' final :
  files ≡ₚ files' →
  passes hashfunc open scan1 scan2 files = Ok final →
  ∃ final',
    passes hashfunc open scan1 scan2 files' = Ok final'
    ∧ flatten final ≡ₚ flatten final'
    ∧ (∀ hash members,
         (hash, members) ∈ final →
         ∃ members', (hash, members') ∈ final' ∧ members ≡ₚ members')
    ∧ length final = length final'.
Proof.
  intros Hperm (d1 & d2 & Hd1 & Hd2 & Hd3)%passes_Ok.
  destruct (pass_Permutation _ _ _ _ _ _ Hperm Hd1) as (d1' & Hd1' & Hf1 & _).
  destruct (pass_Permutation _ _ _ _ _ _ Hf1 Hd2) as (d2' & Hd2' & Hf2 & _).
  destruct (pass_Permutation _ _ _ _ _ _ Hf2 Hd3) as (d3' & Hd3' & Hf3 & Hg3).
  exists d3'. unfold passes. rewrite Hd1', Hd2'. split_and!; [done..|].
  destruct (pass_Permutation _ _ _ _ _ _ (symmetry Hf2) Hd3') as (d3'' & Hd3'' & _ & Hg3').
  assert (d3'' = final) as -> by congruence.
  assert (∀ (a b : ODict.t (list string)),
            NoDup (ODict.keys a) →
            (∀ h g, (h, g) ∈ a → ∃ g', (h, g') ∈ b) →
            (length a ≤ length b)%nat) as Hle.
  { intros a b Hnd Hsub. rewrite <- (length_fmap fst a), <- (length_fmap fst b).
    apply submseteq_length, NoDup_submseteq; [done|].
    intros h ([h' g] & -> & Hin)%list_elem_of_fmap.
    destruct (Hsub _ _ Hin) as [g' Hin']. apply list_elem_of_fmap. by exists (h', g'). }
  apply Nat.le_antisymm; apply Hle.
  - by eapply pass_keys_NoDup.
  - intros h g Hin. destruct (Hg3 h g Hin) as (g' & ? & _). eauto.
  - by eapply pass_keys_NoDup.
  - intros h g Hin. destruct (Hg3' h g Hin) as (g' & ? & _). eauto.
Qed.

Lemma groups_independent_of_enumeration_order_witness :
  ["./a.txt"; "./b.txt"; "./c.txt"; "./d.txt"] ≡ₚ ["./d.txt"; "./b.txt"; "./c.txt"; "./a.txt"]
  ∧ passes plain scenario_open SCANSIZE (100 * SCANSIZE)
      ["./a.txt"; "./b.txt"; "./c.txt"; "./d.txt"]
    = Ok [(plain (replicate 5000 x58), ["./a.txt"; "./b.txt"])]
  ∧ passes plain scenario_open SCANSIZE (100 * SCANSIZE)
      ["./d.txt"; "./b.txt"; "./c.txt"; "./a.txt"]
    = Ok [(plain (replicate 5000 x58), ["./b.txt"; "./a.txt"])]
  ∧ ∃ final',
      passes plain scenario_open SCANSIZE (100 * SCANSIZE)
        ["./d.txt"; "./b.txt"; "./c.txt"; "./a.txt"] = Ok final'
      ∧ flatten [(plain (replicate 5000 x58), ["./a.txt"; "./b.txt"])] ≡ₚ flatten final'
      ∧ (∀ hash members,
           (hash, members) ∈ [(plain (replicate 5000 x58), ["./a.txt"; "./b.txt"])] →
           ∃ members', (hash, members') ∈ final' ∧ members ≡ₚ members')
      ∧ length [(plain (replicate 5000 x58), ["./a.txt"; "./b.txt"])] = length final'.
Proof.
  assert (["./a.txt"; "./b.txt"; "./c.txt"; "./d.txt"]
          ≡ₚ ["./d.txt"; "./b.txt"; "./c.txt"; "./a.txt"]) as Hperm.
  { apply (bool_decide_unpack _). vm_compute. exact I. }
  assert (passes plain scenario_open SCANSIZE (100 * SCANSIZE)
            ["./a.txt"; "./b.txt"; "./c.txt"; "./d.txt"]
          = Ok [(plain (replicate 5000 x58), ["./a.txt"; "./b.txt"])]) as Hd.
  { vm_compute. reflexivity. }
  split_and!; [exact Hperm | exact Hd | vm_compute; reflexivity |].
  exact (groups_independent_of_enumeration_order _ _ _ _ _ _ _ Hperm Hd).
Defined.
